(** * bmpfont: the glyph packer and emitter of [bmpfont.cpp]

    A shallow embedding of [MainWindow::saveButton] and of the repertoire
    [chars], followed by the properties of the emitted font table.

    C++ [int] values are modelled as [Z].  Signed overflow is undefined in
    C++, so the model follows the executions whose values stay inside [int];
    the only [unsigned int] of the program, [value], carries its 32-bit
    wrap-around explicitly ([u32]). *)

From Stdlib Require Import ZArith List String Ascii Bool Lia.
From Stdlib Require Import DecimalString HexString DecimalN DecimalPos.
Import ListNotations.

Local Open Scope Z_scope.

(** ** Qt value types used by [saveButton] *)

Module Qt.

(** [QRect] stores its two corners, as in Qt's [qrect.h]:
    the members are [x1], [y1], [x2], [y2], and
    [QRect(left, top, width, height)] sets
    [x2 = left + width - 1] and [y2 = top + height - 1]. *)
Record QRect : Type := mkQRect { x1 : Z; y1 : Z; x2 : Z; y2 : Z }.

(** The constructor [QRect(int left, int top, int width, int height)]. *)
Definition QRect_ (left top width height : Z) : QRect :=
  mkQRect left top (left + width - 1) (top + height - 1).

(** [int QRect::x() const { return x1; }] *)
Definition x (r : QRect) : Z := x1 r.

(** [int QRect::y() const { return y1; }] *)
Definition y (r : QRect) : Z := y1 r.

(** [int QRect::width() const { return x2 - x1 + 1; }] *)
Definition width (r : QRect) : Z := x2 r - x1 r + 1.

(** [int QRect::height() const { return y2 - y1 + 1; }] *)
Definition height (r : QRect) : Z := y2 r - y1 r + 1.

(** [void QRect::setX(int ax) { x1 = ax; }].  Qt documents it as: sets the
    left edge of the rectangle to the given x coordinate; may change the
    width, but will never change the right edge of the rectangle. *)
Definition setX (r : QRect) (ax : Z) : QRect :=
  mkQRect ax (y1 r) (x2 r) (y2 r).

(** [void QRect::setY(int ay) { y1 = ay; }]: sets the top edge; the bottom
    edge stays. *)
Definition setY (r : QRect) (ay : Z) : QRect :=
  mkQRect (x1 r) ay (x2 r) (y2 r).

(** [void QRect::setHeight(int h) { y2 = y1 + h - 1; }]: the bottom edge
    is changed, the top edge stays. *)
Definition setHeight (r : QRect) (h : Z) : QRect :=
  mkQRect (x1 r) (y1 r) (x2 r) (y1 r + h - 1).

(** [QRgb] is an [unsigned int] holding [0xAARRGGBB]. *)
Definition QRgb : Type := Z.

(** [QColor(r, g, b).rgb()]: opaque colour. *)
Definition qRgb (r g b : Z) : QRgb :=
  Z.lor (Z.shiftl 255 24)
    (Z.lor (Z.shiftl (Z.land r 255) 16)
       (Z.lor (Z.shiftl (Z.land g 255) 8) (Z.land b 255))).

(** [int qBlue(QRgb rgb) { return rgb & 0xff; }] *)
Definition qBlue (rgb : QRgb) : Z := Z.land rgb 255.

(** A [QImage] is looked at only through [image.pixel(x, y)]; the model
    keeps that function.  The buffer of [saveButton] is 100 by 100; what
    [pixel] answers for coordinates outside the buffer is left to the
    function (Qt documents the result as undefined). *)
Definition QImage : Type := Z -> Z -> QRgb.

(** [image.fill(color)] *)
Definition fill (color : QRgb) : QImage := fun _ _ => color.

(** [image.pixel(x, y)] *)
Definition pixel (image : QImage) (px py : Z) : QRgb := image px py.

(** [QFontMetrics metrics(font)]: the three queries [saveButton] makes. *)
Record QFontMetrics : Type := mkMetrics {
  metrics_height : Z;
  boundingRect : string -> QRect;
  horizontalAdvance : string -> Z
}.

(** [QPainter p(&image)] with the font set: [p.drawText(r, text)] called
    with the pen colour [pen] on the image [image] yields the image. *)
Record QPainter : Type := mkPainter {
  drawText : QRgb -> QRect -> string -> QImage -> QImage
}.

End Qt.

Import Qt.

(** ** C loops and integers *)

(** [unsigned int] arithmetic is modulo 2^32. *)
Definition u32 (z : Z) : Z := z mod 2 ^ 32.

(** The values taken by [i] in [for (int i = start; i < bound; i += step)],
    in order.  Each round tests [i < bound] and then adds [step]. *)
Fixpoint for_loop (fuel : nat) (i bound step : Z) : list Z :=
  match fuel with
  | O => []
  | S fuel' =>
      if i <? bound then i :: for_loop fuel' (i + step) bound step else []
  end.

(** With a positive step the loop makes at most [bound - start] rounds. *)
Definition for_range (start bound step : Z) : list Z :=
  for_loop (Z.to_nat (bound - start)) start bound step.

(** ** The packer: lines 135-150 of [saveButton] *)

(** The test of line 145: [qBlue(image.pixel(px, py)) < 128]. *)
Definition is_black (image : QImage) (px py : Z) : bool :=
  qBlue (pixel image px py) <? 128.

(** One round of [for (int x = 0; x < left; x++)]:
    [if (qBlue(image.pixel(xByte + x, y)) < 128) value |= 1 << ((left - 1) - x);] *)
Definition pack_bit (image : QImage) (xByte left y : Z) (value x : Z) : Z :=
  if is_black image (xByte + x) y
  then u32 (Z.lor value (Z.shiftl 1 ((left - 1) - x)))
  else value.

(** [unsigned int value = 0; for (int x = 0; x < left; x++) ...]:
    the value printed for one column group. *)
Definition pack_byte (image : QImage) (xByte left y : Z) : Z :=
  fold_left (pack_bit image xByte left y) (for_range 0 left 1) 0.

(** [int left = r.x() + r.width() - xByte; if (left > 8) left = 8;] *)
Definition group_left (r : QRect) (xByte : Z) : Z :=
  let left := x r + width r - xByte in
  if left >? 8 then 8 else left.

(** The pairs [(xByte, left)] visited by
    [for (int xByte = 0; xByte < r.x() + r.width(); xByte += 8)]. *)
Definition column_groups (r : QRect) : list (Z * Z) :=
  map (fun xByte => (xByte, group_left r xByte))
      (for_range 0 (x r + width r) 8).

(** The values printed by the [xByte] loop for row [y]. *)
Definition pack_row (image : QImage) (r : QRect) (y : Z) : list Z :=
  map (fun g => pack_byte image (fst g) (snd g) y) (column_groups r).

(** The values printed by [for (int y = 0; y < charHeight; y++)]. *)
Definition pack_glyph (image : QImage) (r : QRect) (charHeight : Z) : list Z :=
  flat_map (pack_row image r) (for_range 0 charHeight 1).

(** The coordinates handed to [image.pixel] by the same three loops, in
    call order. *)
Definition byte_reads (xByte left y : Z) : list (Z * Z) :=
  map (fun x => (xByte + x, y)) (for_range 0 left 1).

Definition row_reads (r : QRect) (y : Z) : list (Z * Z) :=
  flat_map (fun g => byte_reads (fst g) (snd g) y) (column_groups r).

Definition glyph_reads (r : QRect) (charHeight : Z) : list (Z * Z) :=
  flat_map (row_reads r) (for_range 0 charHeight 1).

(** [QImage image(100, 100, QImage::Format_ARGB32)]: the coordinates that
    lie inside the buffer. *)
Definition image_width : Z := 100.
Definition image_height : Z := 100.

Definition in_buffer (p : Z * Z) : bool :=
  (0 <=? fst p) && (fst p <? image_width) &&
  (0 <=? snd p) && (snd p <? image_height).

(** ** The repertoire: lines 13-24 *)

Local Open Scope string_scope.
Local Open Scope Z_scope.

(** The third entry of the source, the double-quote character (code 34). *)
Definition dquote : string := String "034"%char EmptyString.

(** [std::vector<std::string> chars], each entry the bytes of its UTF-8
    encoding. *)
Definition chars : list string := [
  " "; "!"; dquote; "#"; "$"; "%"; "&"; "'"; "("; ")"; "*"; "+"; ","; "-"; "."; "/";
  "0"; "1"; "2"; "3"; "4"; "5"; "6"; "7"; "8"; "9"; ":"; ";"; "<"; "="; ">"; "?";
  "@"; "A"; "B"; "C"; "D"; "E"; "F"; "G"; "H"; "I"; "J"; "K"; "L"; "M"; "N"; "O";
  "P"; "Q"; "R"; "S"; "T"; "U"; "V"; "W"; "X"; "Y"; "Z"; "["; "\"; "]"; "^"; "_";
  "`"; "a"; "b"; "c"; "d"; "e"; "f"; "g"; "h"; "i"; "j"; "k"; "l"; "m"; "n"; "o";
  "p"; "q"; "r"; "s"; "t"; "u"; "v"; "w"; "x"; "y"; "z"; "{"; "|"; "}"; "~"; "ᴇ";
  "∞"; "×"; "÷"; "±"; "°"; "∀"; "∅"; "∈"; "∉"; "∙"; "∫"; "≈"; "≤"; "≥"; "⋂"; "⋃";
  "←"; "↑"; "→"; "↓"; "↵"; "⬏"; "α"; "β"; "Γ"; "γ"; "Δ"; "δ"; "ϵ"; "ϝ"; "ζ"; "η";
  "Θ"; "θ"; "ι"; "κ"; "Λ"; "λ"; "μ"; "ν"; "Ξ"; "ξ"; "Π"; "π"; "ρ"; "Σ"; "σ"; "τ";
  "υ"; "Φ"; "ϕ"; "χ"; "Ψ"; "ψ"; "Ω"; "ω"; "…"; "▪"; "◂"; "▴"; "▸"; "▾"; "≠"; "≷";
  "∡"; "²"; "³"; "ˣ"; "₂"; "ℹ"; "⟪"; "⟫"; "⦗"; "⦘"].

(** ** [fprintf] and its conversions *)

(** The line feed written by the escape [\n] of the C literals. *)
Definition LF : string := String "010"%char EmptyString.

(** The digit characters used by the conversions [%x] and [%d]. *)
Definition digit_chars : list ascii :=
  list_ascii_of_string "0123456789abcdef".

Definition digit_char (d : Z) : ascii := nth (Z.to_nat d) digit_chars "0"%char.

(** The digits of [n] in base [base], most significant first, in front of
    [acc]; at least one digit is written, and no leading zero. *)
Fixpoint digits (fuel : nat) (base n : Z) (acc : string) : string :=
  match fuel with
  | O => acc
  | S fuel' =>
      let acc' := String (digit_char (n mod base)) acc in
      if n / base =? 0 then acc' else digits fuel' base (n / base) acc'
  end.

(** The conversion [%x] of an [unsigned int]: at most 8 digits. *)
Definition sprintf_x (value : Z) : string := digits 8 16 (u32 value) "".

(** The conversion [%d] of an [int]: a sign and at most 10 digits. *)
Definition sprintf_d (n : Z) : string :=
  if n <? 0 then "-" ++ digits 10 10 (- n) "" else digits 10 10 n "".

(** [fprintf(fp, s)]: the text of the file grows by [s]. *)
Definition fprintf (fp : string) (s : string) : string := fp ++ s.

(** ** [saveButton]: lines 112-173 *)

Section SaveButton.

Variable metrics : QFontMetrics.
Variable p : QPainter.

(** [int charHeight = metrics.height();] *)
Definition charHeight : Z := metrics_height metrics.

(** Lines 126-129: the rectangle of the oracle, then [r.setY(0)],
    [r.setHeight(charHeight)], [r.setX(0)]. *)
Definition glyph_rect (ch : string) : QRect :=
  let r := boundingRect metrics ch in
  let r := setY r 0 in
  let r := setHeight r charHeight in
  let r := setX r 0 in
  r.

(** Lines 124 and 131-133: the image is filled with white and the
    character is drawn with a black pen into the rectangle. *)
Definition glyph_image (ch : string) : QImage :=
  let image := fill (qRgb 255 255 255) in
  drawText p (qRgb 0 0 0) (glyph_rect ch) ch image.

(** The values printed for one character by lines 135-150. *)
Definition glyph_bytes (ch : string) : list Z :=
  pack_glyph (glyph_image ch) (glyph_rect ch) charHeight.

(** The coordinates read from the image for one character. *)
Definition glyph_pixel_reads (ch : string) : list (Z * Z) :=
  glyph_reads (glyph_rect ch) charHeight.

(** [fprintf(fp, "0x%x,", value)] *)
Definition print_byte (fp : string) (value : Z) : string :=
  fprintf fp ("0x" ++ sprintf_x value ++ ",").

(** The body of [for (auto &ch : chars)], lines 123-152. *)
Definition emit_glyph (fp : string) (ch : string) : string :=
  let fp := fprintf fp "        &[" in
  let fp := fold_left print_byte (glyph_bytes ch) fp in
  fprintf fp ("]," ++ LF).

(** Lines 159-161: [QRect r = metrics.boundingRect(chars[i]); r.setX(0);]
    and the printed number [r.x() + r.width()]. *)
Definition width_px (ch : string) : Z :=
  let r := boundingRect metrics ch in
  let r := setX r 0 in
  x r + width r.

(** Line 169: the printed number [metrics.horizontalAdvance(chars[i])]. *)
Definition advance_px (ch : string) : Z := horizontalAdvance metrics ch.

(** [chars[i]] *)
Definition chars_at (i : Z) : string := nth (Z.to_nat i) chars "".

(** [if ((i > 0) && ((i % 0x20) == 0)) fprintf(fp, "\n        ");] *)
Definition wrap_line (fp : string) (i : Z) : string :=
  if (i >? 0) && (i mod 32 =? 0) then fprintf fp (LF ++ "        ") else fp.

(** The body of the loop of lines 155-162. *)
Definition emit_width (fp : string) (i : Z) : string :=
  let fp := wrap_line fp i in
  fprintf fp (sprintf_d (width_px (chars_at i)) ++ ",").

(** The body of the loop of lines 165-170. *)
Definition emit_advance (fp : string) (i : Z) : string :=
  let fp := wrap_line fp i in
  fprintf fp (sprintf_d (advance_px (chars_at i)) ++ ",").

(** [chars.size()] *)
Definition chars_size : Z := Z.of_nat (List.length chars).

(** The text of the file when [saveButton] returns, for a file name that
    was chosen and opened. *)
Definition saveButton : string :=
  let fp := "" in
  let fp := fprintf fp ("#[allow(dead_code)]" ++ LF) in
  let fp := fprintf fp
    ("pub const FONT: crate::screen::Font = crate::screen::Font {" ++ LF) in
  let fp := fprintf fp ("    height: " ++ sprintf_d charHeight ++ "," ++ LF) in
  let fp := fprintf fp ("    chars: &[" ++ LF) in
  let fp := fold_left emit_glyph chars fp in
  let fp := fprintf fp ("    ]," ++ LF) in
  let fp := fprintf fp ("    width: &[" ++ LF ++ "        ") in
  let fp := fold_left emit_width (for_range 0 chars_size 1) fp in
  let fp := fprintf fp (LF ++ "    ]," ++ LF) in
  let fp := fprintf fp ("    advance: &[" ++ LF ++ "        ") in
  let fp := fold_left emit_advance (for_range 0 chars_size 1) fp in
  let fp := fprintf fp (LF ++ "    ]," ++ LF) in
  let fp := fprintf fp ("};" ++ LF) in
  fp.

(** The three sequences of the font table, as the loops produce them. *)
Definition chars_seq : list (list Z) := map glyph_bytes chars.

Definition width_seq : list Z :=
  map (fun i => width_px (chars_at i)) (for_range 0 chars_size 1).

Definition advance_seq : list Z :=
  map (fun i => advance_px (chars_at i)) (for_range 0 chars_size 1).

End SaveButton.

(** ** The preview: [MainWidget::paintEvent], lines 50-66 *)

(** [v[i]] on a [std::vector]: reading outside the vector is undefined
    behaviour, which the model answers with [None]. *)
Definition vector_at (v : list string) (i : Z) : option string :=
  if i <? 0 then None else nth_error v (Z.to_nat i).

(** The indices [y * 32 + x] handed to [chars[...]] by the rounds of
    [for (int x = 0; x <= 32; x++)] from [x] on, for a vector of [size]
    entries: a round whose index is greater than [size] leaves the loop
    ([if (((y * 32) + x) > chars.size()) break;]).  The index is at most
    192, so its conversion to [size_t] for the comparison keeps it. *)
Fixpoint row_accesses (fuel : nat) (size y x : Z) : list Z :=
  match fuel with
  | O => []
  | S fuel' =>
      if x <=? 32 then
        if y * 32 + x >? size then []
        else (y * 32 + x) :: row_accesses fuel' size y (x + 1)
      else []
  end.

(** The inner loop starts at [x = 0] and makes at most 33 rounds. *)
Definition preview_row_accesses (size y : Z) : list Z :=
  row_accesses 34 size y 0.

(** The indices read by the whole of [for (int y = 0; y < 6; y++)]. *)
Definition preview_accesses (size : Z) : list Z :=
  flat_map (preview_row_accesses size) (for_range 0 6 1).

(** [s += QString::fromStdString(v[i]);] with the text kept as the bytes
    of its UTF-8 encoding. *)
Definition append_entry (v : list string) (s : option string) (i : Z)
  : option string :=
  match s with
  | None => None
  | Some s =>
      match vector_at v i with
      | None => None
      | Some entry => Some (s ++ entry)
      end
  end.

(** One round of the loop over [y]: the inner loop, then [s += "\n";]. *)
Definition preview_row (v : list string) (s : option string) (y : Z)
  : option string :=
  match fold_left (append_entry v)
                  (preview_row_accesses (Z.of_nat (List.length v)) y) s with
  | None => None
  | Some s => Some (s ++ LF)
  end.

(** The text handed to [p.drawText(rect(), s)] by [paintEvent] when the
    global vector is [v]; the program runs it on [chars]. *)
Definition paintEvent (v : list string) : option string :=
  fold_left (preview_row v) (for_range 0 6 1) (Some "").

(** ** The window: the font and the two buttons, lines 26-47 and 97-117 *)

Module Window.

(** [QFont::HintingPreference] *)
Inductive HintingPreference : Type :=
| PreferDefaultHinting
| PreferNoHinting
| PreferVerticalHinting
| PreferFullHinting.

(** [QFont::StyleHint] *)
Inductive StyleHint : Type :=
| Helvetica | Times | Courier | OldEnglish | System
| AnyStyle | Cursive | Monospace | Fantasy.

(** [QFont::StyleStrategy] is a set of flags; [QFont::NoAntialias] is
    0x0100. *)
Definition StyleStrategy : Type := Z.
Definition NoAntialias : StyleStrategy := 256.

(** A [QFont]: the three attributes [setFont] writes, and [request] for
    all the others (family, size, weight, ...). *)
Record QFont : Type := mkQFont {
  request : string;
  hintingPreference : HintingPreference;
  styleHint : StyleHint;
  styleStrategy : StyleStrategy
}.

(** [font.setHintingPreference(h)] *)
Definition setHintingPreference (font : QFont) (h : HintingPreference) : QFont :=
  mkQFont (request font) h (styleHint font) (styleStrategy font).

(** [font.setStyleHint(hint, strategy)] sets the hint and the strategy. *)
Definition setStyleHint (font : QFont) (hint : StyleHint)
    (strategy : StyleStrategy) : QFont :=
  mkQFont (request font) (hintingPreference font) hint strategy.

(** [MainWidget::setFont], lines 41-47: the value of [m_font] afterwards.
    The repaint that [update()] requests changes neither the font nor the
    files and is not part of this state. *)
Definition setFont (font : QFont) : QFont :=
  let m_font := font in
  let m_font := setHintingPreference m_font PreferFullHinting in
  let m_font := setStyleHint m_font AnyStyle NoAntialias in
  m_font.

(** The window: [m_widget->m_font] and the files written so far, the
    latest first, each with its name and its text. *)
Record MainWindow : Type := mkWindow {
  m_font : QFont;
  files : list (string * string)
}.

(** [MainWidget::currentFont], lines 36-39. *)
Definition currentFont (w : MainWindow) : QFont := m_font w.

(** What the operator answers to the dialog a button opens:
    [QFontDialog::getFont(&ok, ...)] gives [ok] and a font,
    [QFileDialog::getSaveFileName()] gives a name, or the null string
    ([None]) when the dialog is cancelled. *)
Inductive press : Type :=
| FontPressed (ok : bool) (font : QFont)
| SavePressed (name : option string).

Section Host.

(** [QFontMetrics metrics(font)] and [p.setFont(font)] on the image. *)
Variable metrics_of : QFont -> QFontMetrics.
Variable painter_of : QFont -> QPainter.

(** [fopen(filename, "w")] gives a stream for these names, and a null
    pointer for the others. *)
Variable can_open : string -> bool.

(** The constructors, lines 31-34 and 74-94: [setFont(font())] on the
    font [font] of the new widget. *)
Definition new_window (font : QFont) : MainWindow :=
  mkWindow (setFont font) [].

(** [MainWindow::fontButton], lines 97-103. *)
Definition fontButton (w : MainWindow) (ok : bool) (font : QFont) : MainWindow :=
  if ok then mkWindow (setFont font) (files w) else w.

(** [MainWindow::saveButton], lines 105-174: nothing happens for the null
    name; the stream is used without a test, so a name that cannot be
    opened makes the run undefined ([None]); otherwise the file receives
    the text of the font table of the current font. *)
Definition saveButton_pressed (w : MainWindow) (name : option string)
  : option MainWindow :=
  match name with
  | None => Some w
  | Some filename =>
      let font := currentFont w in
      if can_open filename
      then Some (mkWindow (m_font w)
                   ((filename, saveButton (metrics_of font) (painter_of font))
                      :: files w))
      else None
  end.

Definition step (w : MainWindow) (e : press) : option MainWindow :=
  match e with
  | FontPressed ok font => Some (fontButton w ok font)
  | SavePressed name => saveButton_pressed w name
  end.

(** The presses of a session, one after the other. *)
Fixpoint run (w : MainWindow) (presses : list press) : option MainWindow :=
  match presses with
  | [] => Some w
  | e :: rest =>
      match step w e with
      | None => None
      | Some w' => run w' rest
      end
  end.

End Host.

(** A press whose dialog was accepted. *)
Definition accepted (e : press) : bool :=
  match e with
  | FontPressed ok _ => ok
  | SavePressed (Some _) => true
  | SavePressed None => false
  end.

(** A font as [setFont] leaves it. *)
Definition crisp (font : QFont) : Prop :=
  hintingPreference font = PreferFullHinting /\
  styleHint font = AnyStyle /\
  styleStrategy font = NoAntialias.

(** The files of a window were all written with a font as [setFont]
    leaves it. *)
Definition files_crisp (metrics_of : QFont -> QFontMetrics)
    (painter_of : QFont -> QPainter) (w : MainWindow) : Prop :=
  Forall (fun file =>
            exists font, crisp font /\
              snd file = saveButton (metrics_of font) (painter_of font))
         (files w).

End Window.

(** ** A host for tests: one rectangle, one advance, a set of black pixels *)

(** The metrics answer the same rectangle and advance for every character. *)
Definition mock_metrics (h : Z) (r : QRect) (advance : Z) : QFontMetrics :=
  mkMetrics h (fun _ => r) (fun _ => advance).

(** The painter sets the listed pixels to the pen colour. *)
Definition mock_painter (black : list (Z * Z)) : QPainter :=
  mkPainter (fun pen _ _ image px py =>
    if existsb (fun q => (fst q =? px) && (snd q =? py)) black
    then pen else image px py).

(** ** Notions used to state the properties *)

(** Round [x] of the inner loop sets bit [n]: the pixel is black and
    [(left - 1) - x] is [n]. *)
Definition sets_bit (image : QImage) (xByte left y n x : Z) : bool :=
  is_black image (xByte + x) y && (left - 1 - x =? n).

(** The column scan as the specification words it: from [rx], by steps of
    8, while [xByte < rx + rw], with [left = min(8, (rx + rw) - xByte)]. *)
Definition claimed_column_groups (rx rw : Z) : list (Z * Z) :=
  map (fun xByte => (xByte, Z.min 8 (rx + rw - xByte)))
      (for_range rx (rx + rw) 8).

(** The metrics [m] with the vertical placement of every bounding
    rectangle replaced by [ry] and [rh]. *)
Definition with_vertical (m : QFontMetrics) (ry rh : Z) : QFontMetrics :=
  mkMetrics (metrics_height m)
    (fun ch => let r := boundingRect m ch in QRect_ (x r) ry (width r) rh)
    (horizontalAdvance m).

(** *** The grammar of the artifact, stated on its own *)

(** The texts of a list, one after the other. *)
Definition join (l : list string) : string := fold_right append "" l.

(** The texts of a list with [sep] between neighbours. *)
Fixpoint join_with (sep : string) (l : list string) : string :=
  match l with
  | [] => ""
  | a :: rest =>
      a ++ match rest with [] => "" | _ => sep ++ join_with sep rest end
  end.

(** A list cut into pieces of [n] elements, the last one possibly shorter. *)
Fixpoint chunks_fuel {A : Type} (fuel n : nat) (l : list A) : list (list A) :=
  match fuel with
  | O => []
  | S fuel' =>
      match l with
      | [] => []
      | _ => firstn n l :: chunks_fuel fuel' n (skipn n l)
      end
  end.

Definition chunks {A : Type} (n : nat) (l : list A) : list (list A) :=
  chunks_fuel (List.length l) n l.

(** A byte in lowercase hexadecimal without padding: one digit below 16,
    two digits otherwise. *)
Definition hex_byte (value : Z) : string :=
  if value <? 16 then String (digit_char value) ""
  else String (digit_char (value / 16)) (String (digit_char (value mod 16)) "").

(** A packed byte: the prefix [0x], the digits, a comma. *)
Definition byte_text (value : Z) : string := "0x" ++ hex_byte value ++ ",".

(** The line of one glyph: every byte, the last one too, has its comma. *)
Definition glyph_text (bytes : list Z) : string :=
  "        &[" ++ join (map byte_text bytes) ++ "]," ++ LF.

(** A sequence of numbers: each in decimal followed by a comma, 32 to a
    line, the lines separated by a line feed and the indentation. *)
Definition numbers_text (ns : list Z) : string :=
  join_with (LF ++ "        ")
            (map join (chunks 32 (map (fun n => sprintf_d n ++ ",") ns))).

(** The whole artifact for a height and the three sequences. *)
Definition artifact_text (h : Z) (glyphs : list (list Z)) (widths advances : list Z)
  : string :=
  "#[allow(dead_code)]" ++ LF ++
  "pub const FONT: crate::screen::Font = crate::screen::Font {" ++ LF ++
  "    height: " ++ sprintf_d h ++ "," ++ LF ++
  "    chars: &[" ++ LF ++
  join (map glyph_text glyphs) ++
  "    ]," ++ LF ++
  "    width: &[" ++ LF ++ "        " ++
  numbers_text widths ++
  LF ++ "    ]," ++ LF ++
  "    advance: &[" ++ LF ++ "        " ++
  numbers_text advances ++
  LF ++ "    ]," ++ LF ++
  "};" ++ LF.

(** The text written from entry number [i] on by the loops of lines
    155-162 and 165-170, for the entry texts [items]. *)
Fixpoint wrapped_from (i : Z) (items : list string) : string :=
  match items with
  | [] => ""
  | t :: rest =>
      (if (i >? 0) && (i mod 32 =? 0) then LF ++ "        " else "") ++
      t ++ wrapped_from (i + 1) rest
  end.

(** Reading back what [%x] and [%d] wrote. *)
Definition digit_value (c : ascii) : Z :=
  match find (fun d => Ascii.eqb (digit_char d) c) (for_range 0 16 1) with
  | Some d => d
  | None => 0
  end.

Definition read_digits (base : Z) (s : string) (from : Z) : Z :=
  fold_left (fun acc c => acc * base + digit_value c) (list_ascii_of_string s) from.

Definition read_x (s : string) : Z := read_digits 16 s 0.

Definition read_d (s : string) : Z :=
  match s with
  | String "-" rest => - read_digits 10 rest 0
  | _ => read_digits 10 s 0
  end.

(** The pixels of a group read from left to right as the digits of a
    binary numeral, a black pixel being the digit 1. *)
Definition numeral_of_pixels (image : QImage) (xByte left y : Z) : Z :=
  fold_left (fun acc x => 2 * acc + Z.b2z (is_black image (xByte + x) y))
            (for_range 0 left 1) 0.

(** The pixels of [cols] columns and [rows] rows from the origin, row by
    row and from left to right within a row. *)
Definition region (cols rows : Z) : list (Z * Z) :=
  flat_map (fun row => map (fun c => (Z.of_nat c, Z.of_nat row))
                           (seq 0 (Z.to_nat cols)))
           (seq 0 (Z.to_nat rows)).

(** *** The grammar stated with the printers of the Standard Library *)

(** A number in decimal as the Standard Library prints it: a minus sign
    for a negative number, then the digits 0 .. 9 without leading zero. *)
Definition decimal_text (n : Z) : string :=
  NilZero.string_of_int (Z.to_int n).

(** A packed byte as the Standard Library prints a hexadecimal number,
    with the prefix [0x] and the digits 0 .. 9, a .. f without leading
    zero, then a comma. *)
Definition table_byte_text (value : Z) : string := HexString.of_Z value ++ ",".

Definition table_glyph_text (bytes : list Z) : string :=
  "        &[" ++ join (map table_byte_text bytes) ++ "]," ++ LF.

Definition table_numbers_text (ns : list Z) : string :=
  join_with (LF ++ "        ")
            (map join (chunks 32 (map (fun n => decimal_text n ++ ",") ns))).

Definition font_table_text (h : Z) (glyphs : list (list Z))
    (widths advances : list Z) : string :=
  "#[allow(dead_code)]" ++ LF ++
  "pub const FONT: crate::screen::Font = crate::screen::Font {" ++ LF ++
  "    height: " ++ decimal_text h ++ "," ++ LF ++
  "    chars: &[" ++ LF ++
  join (map table_glyph_text glyphs) ++
  "    ]," ++ LF ++
  "    width: &[" ++ LF ++ "        " ++
  table_numbers_text widths ++
  LF ++ "    ]," ++ LF ++
  "    advance: &[" ++ LF ++ "        " ++
  table_numbers_text advances ++
  LF ++ "    ]," ++ LF ++
  "};" ++ LF.

(** The values of a C [int]. *)
Definition fits_int (n : Z) : bool := (- 2 ^ 31 <=? n) && (n <? 2 ^ 31).

(** The characters of a lowercase hexadecimal number with its prefix. *)
Definition lowercase_hex (s : string) : bool :=
  forallb (fun c => existsb (Ascii.eqb c)
                            (list_ascii_of_string "x0123456789abcdef"))
          (list_ascii_of_string s).

(** The decimal digit [d] in front of a number of the Standard Library. *)
Definition lu_digit (d : Z) (rest : Decimal.uint) : Decimal.uint :=
  match d with
  | 0 => Decimal.D0 rest | 1 => Decimal.D1 rest | 2 => Decimal.D2 rest
  | 3 => Decimal.D3 rest | 4 => Decimal.D4 rest | 5 => Decimal.D5 rest
  | 6 => Decimal.D6 rest | 7 => Decimal.D7 rest | 8 => Decimal.D8 rest
  | _ => Decimal.D9 rest
  end.

(** The digits of [n], the least significant first. *)
Fixpoint little_digits (fuel : nat) (n : Z) : Decimal.uint :=
  match fuel with
  | O => Decimal.Nil
  | S fuel' =>
      lu_digit (n mod 10)
        (if n / 10 =? 0 then Decimal.Nil else little_digits fuel' (n / 10))
  end.

(** * Properties *)

(** ** The loops in closed form *)

Lemma for_loop_closed (step : Z) (Hstep : 0 < step) :
  forall (fuel : nat) (i bound : Z),
    (Z.to_nat (bound - i) <= fuel)%nat ->
    for_loop fuel i bound step =
    map (fun k => i + step * Z.of_nat k)
        (seq 0 (Z.to_nat ((bound - i + step - 1) / step))).
Proof.
  induction fuel as [|fuel IH]; intros i bound Hfuel.
  - assert (Hle : bound - i <= 0) by lia.
    assert (Hq : (bound - i + step - 1) / step <= 0).
    { apply Z.lt_succ_r. apply Z.div_lt_upper_bound; lia. }
    replace (Z.to_nat ((bound - i + step - 1) / step)) with 0%nat by lia.
    reflexivity.
  - cbn [for_loop]. destruct (Z.ltb_spec i bound) as [Hlt|Hge].
    + rewrite IH by lia.
      replace (bound - i + step - 1) with ((bound - (i + step) + step - 1) + 1 * step) by lia.
      rewrite Z.div_add by lia.
      assert (Hq : 0 <= (bound - (i + step) + step - 1) / step).
      { apply Z.div_pos; lia. }
      replace (Z.to_nat ((bound - (i + step) + step - 1) / step + 1))
        with (S (Z.to_nat ((bound - (i + step) + step - 1) / step))) by lia.
      cbn [seq map]. f_equal; [lia|].
      rewrite <- seq_shift, map_map.
      apply map_ext. intros k. lia.
    + assert (Hq : (bound - i + step - 1) / step <= 0).
      { apply Z.lt_succ_r. apply Z.div_lt_upper_bound; lia. }
      replace (Z.to_nat ((bound - i + step - 1) / step)) with 0%nat by lia.
      reflexivity.
Qed.

(** [for (i = 0; i < n; i++)] visits 0, 1, ..., n - 1. *)
Lemma for_range_1 (n : Z) :
  for_range 0 n 1 = map Z.of_nat (seq 0 (Z.to_nat n)).
Proof.
  unfold for_range. rewrite for_loop_closed by lia.
  replace ((n - 0 + 1 - 1) / 1) with n by (rewrite Z.div_1_r; lia).
  apply map_ext. intros k. lia.
Qed.

(** [for (i = 0; i < n; i += 8)] visits 0, 8, ..., one value per started
    group of eight. *)
Lemma for_range_8 (n : Z) :
  for_range 0 n 8 = map (fun k => 8 * Z.of_nat k) (seq 0 (Z.to_nat ((n + 7) / 8))).
Proof.
  unfold for_range. rewrite for_loop_closed by lia.
  replace (n - 0 + 8 - 1) with (n + 7) by lia.
  apply map_ext. intros k. lia.
Qed.

Lemma in_for_range_1 (n i : Z) : In i (for_range 0 n 1) <-> 0 <= i < n.
Proof.
  rewrite for_range_1, in_map_iff. split.
  - intros [k [<- Hk]]. apply in_seq in Hk. lia.
  - intros Hi. exists (Z.to_nat i). split; [lia|]. apply in_seq. lia.
Qed.

Lemma map_nth_seq {A B : Type} (f : A -> B) (d : A) (l : list A) :
  map (fun k => f (nth k l d)) (seq 0 (List.length l)) = map f l.
Proof.
  induction l as [|a l IH]; [reflexivity|].
  cbn [List.length seq map nth]. f_equal.
  rewrite <- seq_shift, map_map. exact IH.
Qed.

(** Reading [chars[i]] for i = 0 .. size - 1 is walking the vector. *)
Lemma map_chars_at {A : Type} (f : string -> A) :
  map (fun i => f (chars_at i)) (for_range 0 chars_size 1) = map f chars.
Proof.
  unfold chars_size, chars_at. rewrite for_range_1, Nat2Z.id, map_map.
  rewrite <- (map_nth_seq f "" chars).
  apply map_ext. intros k. now rewrite Nat2Z.id.
Qed.

(** ** The rectangle after lines 126-129 *)

Lemma glyph_rect_eq (m : QFontMetrics) (ch : string) :
  glyph_rect m ch = mkQRect 0 0 (x2 (boundingRect m ch)) (charHeight m - 1).
Proof. unfold glyph_rect, setX, setHeight, setY. cbn. reflexivity. Qed.

(** The scan bound [r.x() + r.width()] is the right edge plus one, which
    no setter of lines 127-129 moves. *)
Lemma glyph_rect_bound (m : QFontMetrics) (ch : string) :
  x (glyph_rect m ch) + width (glyph_rect m ch) =
  x (boundingRect m ch) + width (boundingRect m ch).
Proof. rewrite glyph_rect_eq. unfold x, width. cbn. lia. Qed.

Lemma width_px_eq (m : QFontMetrics) (ch : string) :
  width_px m ch = x (boundingRect m ch) + width (boundingRect m ch).
Proof. unfold width_px, setX, x, width. cbn. lia. Qed.

(** ** The column groups *)

Lemma group_left_min (r : QRect) (xByte : Z) :
  group_left r xByte = Z.min 8 (x r + width r - xByte).
Proof. unfold group_left. cbv zeta. destruct (Z.gtb_spec (x r + width r - xByte) 8); lia. Qed.

Lemma column_groups_closed (r : QRect) :
  column_groups r =
  map (fun k => (8 * Z.of_nat k, Z.min 8 (x r + width r - 8 * Z.of_nat k)))
      (seq 0 (Z.to_nat ((x r + width r + 7) / 8))).
Proof.
  unfold column_groups. rewrite for_range_8, map_map.
  apply map_ext. intros k. now rewrite group_left_min.
Qed.

Lemma length_column_groups (r : QRect) :
  List.length (column_groups r) = Z.to_nat ((x r + width r + 7) / 8).
Proof. now rewrite column_groups_closed, length_map, length_seq. Qed.

(** Every visited group has between one and eight columns. *)
Lemma column_groups_left (r : QRect) (g : Z * Z) :
  In g (column_groups r) -> 0 <= fst g /\ 1 <= snd g <= 8.
Proof.
  rewrite column_groups_closed, in_map_iff.
  intros [k [<- Hk]]. apply in_seq in Hk. cbn [fst snd].
  assert (Hq : Z.of_nat k < (x r + width r + 7) / 8) by lia.
  assert (Hw : 8 * ((x r + width r + 7) / 8) <= x r + width r + 7)
    by (apply Z.mul_div_le; lia).
  lia.
Qed.

(** ** The bits of a packed value *)

Lemma u32_small (z : Z) :
  (forall n, 32 <= n -> Z.testbit z n = false) -> u32 z = z.
Proof.
  intros Hhigh. unfold u32. apply Z.bits_inj'. intros n Hn.
  destruct (Z.lt_ge_cases n 32) as [Hlt|Hge].
  - now rewrite Z.mod_pow2_bits_low.
  - rewrite Z.mod_pow2_bits_high by lia. symmetry. now apply Hhigh.
Qed.

Lemma testbit_one_shifted (k n : Z) :
  0 <= k -> Z.testbit (Z.shiftl 1 k) n = (k =? n).
Proof.
  intros Hk. rewrite Z.shiftl_1_l. now apply Z.pow2_bits_eqb.
Qed.

Lemma pack_bit_bits (image : QImage) (xByte left y value x n : Z) :
  left <= 32 -> 0 <= x < left ->
  (forall i, left <= i -> Z.testbit value i = false) ->
  Z.testbit (pack_bit image xByte left y value x) n =
  Z.testbit value n || sets_bit image xByte left y n x.
Proof.
  intros Hleft Hx Hhigh. unfold pack_bit, sets_bit.
  destruct (is_black image (xByte + x) y); cbn [andb].
  - rewrite u32_small.
    + now rewrite Z.lor_spec, testbit_one_shifted by lia.
    + intros i Hi. rewrite Z.lor_spec, testbit_one_shifted by lia.
      rewrite Hhigh by lia. cbn [orb]. apply Z.eqb_neq. lia.
  - now rewrite orb_false_r.
Qed.

Lemma pack_fold_bits (image : QImage) (xByte left y : Z) (Hleft : left <= 32) :
  forall (xs : list Z) (value : Z),
    (forall x, In x xs -> 0 <= x < left) ->
    (forall i, left <= i -> Z.testbit value i = false) ->
    forall n,
      Z.testbit (fold_left (pack_bit image xByte left y) xs value) n =
      Z.testbit value n || existsb (sets_bit image xByte left y n) xs.
Proof.
  induction xs as [|x xs IH]; intros value Hxs Hhigh n; cbn [fold_left existsb].
  - now rewrite orb_false_r.
  - rewrite IH.
    + rewrite pack_bit_bits by (auto with datatypes). now rewrite orb_assoc.
    + intros x' Hx'. apply Hxs. now right.
    + intros i Hi. rewrite pack_bit_bits by (auto with datatypes).
      rewrite Hhigh by lia. unfold sets_bit.
      replace (left - 1 - x =? i) with false; [now rewrite andb_false_r|].
      symmetry. apply Z.eqb_neq. specialize (Hxs x (or_introl eq_refl)). lia.
Qed.

(** Bit [n] of the value of a group is set exactly when some column of the
    group is black and is mapped to [n]. *)
Lemma pack_byte_bits (image : QImage) (xByte left y n : Z) :
  left <= 32 ->
  Z.testbit (pack_byte image xByte left y) n =
  existsb (sets_bit image xByte left y n) (for_range 0 left 1).
Proof.
  intros Hleft. unfold pack_byte. rewrite pack_fold_bits; trivial.
  - now rewrite Z.bits_0.
  - intros x Hx. now apply in_for_range_1 in Hx.
  - intros i _. apply Z.bits_0.
Qed.

(** Column [col] of a group is bit [(left - 1) - col] of its value. *)
Lemma pack_byte_column (image : QImage) (xByte left y col : Z) :
  left <= 32 -> 0 <= col < left ->
  Z.testbit (pack_byte image xByte left y) ((left - 1) - col) =
  is_black image (xByte + col) y.
Proof.
  intros Hleft Hcol. rewrite pack_byte_bits by trivial.
  destruct (is_black image (xByte + col) y) eqn:Hb.
  - apply existsb_exists. exists col. split.
    + now apply in_for_range_1.
    + unfold sets_bit. now rewrite Hb, Z.eqb_refl.
  - destruct (existsb _ _) eqn:He; [|reflexivity].
    apply existsb_exists in He. destruct He as [c [_ Hc]].
    unfold sets_bit in Hc. apply andb_true_iff in Hc. destruct Hc as [Hc1 Hc2].
    apply Z.eqb_eq in Hc2. replace c with col in Hc1 by lia. congruence.
Qed.

(** The value of a group of [left] columns is below [2 ^ left]. *)
Lemma pack_byte_range (image : QImage) (xByte left y : Z) :
  0 <= left <= 32 -> 0 <= pack_byte image xByte left y < 2 ^ left.
Proof.
  intros Hleft.
  assert (Hmod : pack_byte image xByte left y mod 2 ^ left =
                 pack_byte image xByte left y).
  { apply Z.bits_inj'. intros n Hn.
    destruct (Z.lt_ge_cases n left) as [Hlt|Hge].
    - now rewrite Z.mod_pow2_bits_low.
    - rewrite Z.mod_pow2_bits_high by lia. symmetry.
      rewrite pack_byte_bits by lia.
      destruct (existsb _ _) eqn:He; [|reflexivity].
      apply existsb_exists in He. destruct He as [c [Hin Hc]].
      apply in_for_range_1 in Hin. unfold sets_bit in Hc.
      apply andb_true_iff in Hc. destruct Hc as [_ Hc]. apply Z.eqb_eq in Hc. lia. }
  rewrite <- Hmod. apply Z.mod_pos_bound. apply Z.pow_pos_nonneg; lia.
Qed.

(** ** Rows and glyphs *)

Lemma flat_map_map {A B C : Type} (g : A -> B) (f : B -> list C) (l : list A) :
  flat_map f (map g l) = flat_map (fun a => f (g a)) l.
Proof. induction l as [|a l IH]; cbn; [reflexivity|now rewrite IH]. Qed.

Lemma length_flat_map_const {A B : Type} (f : A -> list B) (n : nat) (l : list A) :
  (forall a, In a l -> List.length (f a) = n) ->
  List.length (flat_map f l) = (List.length l * n)%nat.
Proof.
  induction l as [|a l IH]; intros Hf; cbn [flat_map List.length]; [reflexivity|].
  rewrite length_app, Hf, IH by (auto with datatypes). reflexivity.
Qed.

(** The rows are printed for y = 0, 1, ..., charHeight - 1, in this order. *)
Lemma pack_glyph_rows (image : QImage) (r : QRect) (h : Z) :
  pack_glyph image r h =
  flat_map (fun k => pack_row image r (Z.of_nat k)) (seq 0 (Z.to_nat h)).
Proof. unfold pack_glyph. now rewrite for_range_1, flat_map_map. Qed.

Lemma length_pack_row (image : QImage) (r : QRect) (y : Z) :
  List.length (pack_row image r y) = Z.to_nat ((x r + width r + 7) / 8).
Proof. unfold pack_row. now rewrite length_map, length_column_groups. Qed.

Lemma length_pack_glyph (image : QImage) (r : QRect) (h : Z) :
  List.length (pack_glyph image r h) =
  (Z.to_nat h * Z.to_nat ((x r + width r + 7) / 8))%nat.
Proof.
  rewrite pack_glyph_rows.
  rewrite (length_flat_map_const _ (Z.to_nat ((x r + width r + 7) / 8))).
  - now rewrite length_seq.
  - intros k _. apply length_pack_row.
Qed.

(** The value printed for group number [j] of a row. *)
Lemma nth_pack_row (image : QImage) (r : QRect) (y j : Z) :
  0 <= j -> 8 * j < x r + width r ->
  nth (Z.to_nat j) (pack_row image r y) 0 =
  pack_byte image (8 * j) (Z.min 8 (x r + width r - 8 * j)) y.
Proof.
  intros Hj Hw. unfold pack_row. rewrite column_groups_closed, map_map.
  set (f := fun k : nat => _).
  assert (Hlen : (Z.to_nat j < Z.to_nat ((x r + width r + 7) / 8))%nat).
  { apply Z2Nat.inj_lt; [lia| |]; Z.div_mod_to_equations; lia. }
  rewrite (nth_indep _ 0 (f 0%nat)) by now rewrite length_map, length_seq.
  rewrite map_nth, seq_nth by exact Hlen.
  subst f. cbn [fst snd Nat.add]. now rewrite Z2Nat.id by lia.
Qed.

(** The byte of row [k] and group [j] is at position [k * groups + j]. *)
Lemma nth_flat_map_rows {B : Type} (f : nat -> list B) (n : nat) (d : B) :
  (forall k, List.length (f k) = n) ->
  forall rows k j, (k < rows)%nat -> (j < n)%nat ->
    nth (k * n + j) (flat_map f (seq 0 rows)) d = nth j (f k) d.
Proof.
  intros Hlen. induction rows as [|rows IH]; intros k j Hk Hj; [lia|].
  rewrite seq_S, flat_map_app. cbn [Nat.add flat_map]. rewrite app_nil_r.
  assert (Hrows : List.length (flat_map f (seq 0 rows)) = (rows * n)%nat).
  { rewrite (length_flat_map_const f n); [now rewrite length_seq|auto]. }
  destruct (Nat.eq_dec k rows) as [->|Hne].
  - rewrite app_nth2 by (rewrite Hrows; lia).
    rewrite Hrows. f_equal. lia.
  - rewrite app_nth1 by (rewrite Hrows; nia).
    apply IH; lia.
Qed.

Lemma nth_pack_glyph (image : QImage) (r : QRect) (h row j : Z) :
  0 <= row < h -> 0 <= j -> 8 * j < x r + width r ->
  nth (Z.to_nat (row * ((x r + width r + 7) / 8) + j)) (pack_glyph image r h) 0 =
  pack_byte image (8 * j) (Z.min 8 (x r + width r - 8 * j)) row.
Proof.
  intros Hrow Hj Hw.
  assert (Hq : j < (x r + width r + 7) / 8) by (Z.div_mod_to_equations; lia).
  rewrite pack_glyph_rows.
  replace (Z.to_nat (row * ((x r + width r + 7) / 8) + j))
    with (Z.to_nat row * Z.to_nat ((x r + width r + 7) / 8) + Z.to_nat j)%nat
    by nia.
  rewrite (nth_flat_map_rows _ (Z.to_nat ((x r + width r + 7) / 8))).
  - rewrite Z2Nat.id by lia. now apply nth_pack_row.
  - intros k. apply length_pack_row.
  - lia.
  - lia.
Qed.

Lemma pack_row_range (image : QImage) (r : QRect) (y : Z) :
  Forall (fun value => 0 <= value <= 255) (pack_row image r y).
Proof.
  unfold pack_row. apply Forall_map, Forall_forall. intros g Hg.
  apply column_groups_left in Hg.
  pose proof (pack_byte_range image (fst g) (snd g) y ltac:(lia)) as Hr.
  assert (Hpow : 2 ^ snd g <= 2 ^ 8) by (apply Z.pow_le_mono_r; lia).
  change (2 ^ 8) with 256 in Hpow. lia.
Qed.

Lemma pack_glyph_range (image : QImage) (r : QRect) (h : Z) :
  Forall (fun value => 0 <= value <= 255) (pack_glyph image r h).
Proof.
  unfold pack_glyph. apply Forall_flat_map, Forall_forall.
  intros y _. apply pack_row_range.
Qed.

(** ** The coordinates read *)

Lemma in_row_reads (r : QRect) (y c y' : Z) :
  In (c, y') (row_reads r y) <-> y' = y /\ 0 <= c < x r + width r.
Proof.
  unfold row_reads, byte_reads. rewrite in_flat_map. split.
  - intros [g [Hg Hin]]. apply in_map_iff in Hin. destruct Hin as [col [Heq Hcol]].
    apply in_for_range_1 in Hcol.
    rewrite column_groups_closed in Hg. apply in_map_iff in Hg.
    destruct Hg as [k [<- Hk]]. cbn [fst snd] in *. apply in_seq in Hk.
    apply pair_equal_spec in Heq. destruct Heq as [<- <-]. split; [reflexivity|lia].
  - intros [-> Hc]. exists (8 * (c / 8), Z.min 8 (x r + width r - 8 * (c / 8))). split.
    + rewrite column_groups_closed. apply in_map_iff.
      exists (Z.to_nat (c / 8)).
      assert (Hq : 0 <= c / 8) by (apply Z.div_pos; lia).
      rewrite Z2Nat.id by exact Hq. split; [reflexivity|].
      apply in_seq. split; [lia|]. cbn [Nat.add].
      apply Z2Nat.inj_lt; [lia| |]; Z.div_mod_to_equations; lia.
    + cbn [fst snd]. apply in_map_iff. exists (c mod 8). split.
      * f_equal. Z.div_mod_to_equations; lia.
      * apply in_for_range_1. Z.div_mod_to_equations; lia.
Qed.

(** The scan asks for exactly the pixels of columns 0 .. bound - 1 and rows
    0 .. charHeight - 1. *)
Lemma in_glyph_reads (r : QRect) (h c y : Z) :
  In (c, y) (glyph_reads r h) <-> 0 <= c < x r + width r /\ 0 <= y < h.
Proof.
  unfold glyph_reads. rewrite in_flat_map. split.
  - intros [y' [Hy' Hin]]. apply in_for_range_1 in Hy'.
    apply in_row_reads in Hin. destruct Hin as [-> Hc]. lia.
  - intros [Hc Hy]. exists y. split; [now apply in_for_range_1|].
    now apply in_row_reads.
Qed.

(** ** The text written *)

Lemma append_nil_r (s : string) : s ++ "" = s.
Proof. induction s as [|c s IH]; cbn; [reflexivity|now rewrite IH]. Qed.

Lemma append_assoc (a b c : string) : (a ++ b) ++ c = a ++ b ++ c.
Proof. induction a as [|ch a IH]; cbn; [reflexivity|now rewrite IH]. Qed.

(** A loop that only appends writes the texts of its rounds in order. *)
Lemma fold_left_fprintf {A : Type} (f : A -> string) (l : list A) :
  forall fp, fold_left (fun fp a => fprintf fp (f a)) l fp = fp ++ join (map f l).
Proof.
  induction l as [|a l IH]; intros fp; cbn [fold_left map].
  - unfold join. cbn. now rewrite append_nil_r.
  - rewrite IH. unfold fprintf, join. cbn [fold_right]. now rewrite append_assoc.
Qed.

(** [%x] of a byte is one or two lowercase digits. *)
Lemma sprintf_x_byte (value : Z) :
  0 <= value <= 255 -> sprintf_x value = hex_byte value.
Proof.
  intros Hv.
  assert (Hall : forallb (fun v => String.eqb (sprintf_x v) (hex_byte v))
                         (for_range 0 256 1) = true) by (vm_compute; reflexivity).
  rewrite forallb_forall in Hall.
  apply String.eqb_eq, Hall, in_for_range_1. lia.
Qed.

Lemma print_bytes_text (bytes : list Z) (fp : string) :
  Forall (fun value => 0 <= value <= 255) bytes ->
  fold_left print_byte bytes fp = fp ++ join (map byte_text bytes).
Proof.
  intros Hbytes. unfold print_byte.
  rewrite (fold_left_fprintf (fun value => "0x" ++ sprintf_x value ++ ",")).
  do 2 f_equal. apply map_ext_in. intros value Hin.
  rewrite Forall_forall in Hbytes. unfold byte_text.
  now rewrite sprintf_x_byte by auto.
Qed.

Lemma emit_glyph_text (m : QFontMetrics) (p : QPainter) (fp ch : string) :
  emit_glyph m p fp ch = fp ++ glyph_text (glyph_bytes m p ch).
Proof.
  unfold emit_glyph, glyph_text, fprintf.
  rewrite print_bytes_text by apply pack_glyph_range.
  now rewrite !append_assoc.
Qed.

Lemma emit_glyphs_text (m : QFontMetrics) (p : QPainter) (fp : string) :
  fold_left (emit_glyph m p) chars fp =
  fp ++ join (map glyph_text (chars_seq m p)).
Proof.
  unfold chars_seq. rewrite map_map.
  rewrite <- (fold_left_fprintf (fun ch => glyph_text (glyph_bytes m p ch))).
  generalize chars as l. intros l. revert fp.
  induction l as [|ch l IH]; intros fp; cbn [fold_left]; [reflexivity|].
  now rewrite emit_glyph_text, IH.
Qed.

(** The number loops write entry after entry, with the line break in
    front of the entries 32, 64, ... *)
Lemma emit_numbers_wrapped (text : Z -> string) (len : nat) :
  forall (start : nat) (fp : string),
    fold_left (fun fp i => fprintf (wrap_line fp i) (text i))
              (map Z.of_nat (seq start len)) fp =
    fp ++ wrapped_from (Z.of_nat start)
            (map text (map Z.of_nat (seq start len))).
Proof.
  induction len as [|len IH]; intros start fp; cbn [seq map fold_left wrapped_from].
  - now rewrite append_nil_r.
  - rewrite IH. unfold wrap_line, fprintf.
    replace (Z.of_nat start + 1) with (Z.of_nat (S start)) by lia.
    destruct ((Z.of_nat start >? 0) && (Z.of_nat start mod 32 =? 0));
      now rewrite !append_assoc.
Qed.

Lemma wrapped_from_app (a b : list string) :
  forall i, wrapped_from i (a ++ b) =
            wrapped_from i a ++ wrapped_from (i + Z.of_nat (List.length a)) b.
Proof.
  induction a as [|t a IH]; intros i; cbn [app wrapped_from List.length].
  - cbn [append Z.of_nat]. now rewrite Z.add_0_r.
  - replace (i + Z.of_nat (S (List.length a)))
      with (i + 1 + Z.of_nat (List.length a)) by lia.
    now rewrite IH, !append_assoc.
Qed.

(** Strictly inside a line of 32 entries no line break is written. *)
Lemma wrapped_from_inside (c : Z) (items : list string) :
  forall i, 32 * c < i -> i + Z.of_nat (List.length items) <= 32 * (c + 1) ->
            wrapped_from i items = join items.
Proof.
  induction items as [|t items IH]; intros i Hlo Hhi; [reflexivity|].
  cbn [wrapped_from List.length] in *.
  replace (i mod 32 =? 0) with false.
  - rewrite andb_false_r, IH by lia. reflexivity.
  - symmetry. apply Z.eqb_neq. intros Hmod.
    Z.div_mod_to_equations. lia.
Qed.

(** A line starts with the line break unless it is the first one. *)
Lemma wrapped_from_line (c : Z) (items : list string) :
  0 <= c -> items <> [] -> (List.length items <= 32)%nat ->
  wrapped_from (32 * c) items =
  (if c >? 0 then LF ++ "        " else "") ++ join items.
Proof.
  intros Hc Hne Hlen. destruct items as [|t items]; [contradiction|].
  cbn [wrapped_from List.length] in *.
  rewrite (wrapped_from_inside c) by lia.
  replace (32 * c mod 32 =? 0) with true.
  - rewrite andb_true_r.
    replace (32 * c >? 0) with (c >? 0); [reflexivity|].
    destruct (Z.gtb_spec c 0), (Z.gtb_spec (32 * c) 0); trivial; lia.
  - symmetry. apply Z.eqb_eq. rewrite Z.mul_comm. apply Z.mod_mul. lia.
Qed.

Lemma chunks_fuel_nil {A : Type} (fuel n : nat) :
  chunks_fuel fuel n (@nil A) = [].
Proof. destruct fuel; reflexivity. Qed.

(** The entries come out 32 to a line. *)
Lemma wrapped_from_chunks :
  forall (fuel : nat) (items : list string) (c : Z),
    (List.length items <= fuel)%nat -> 0 <= c ->
    wrapped_from (32 * c) items =
    match items with
    | [] => ""
    | _ => if c >? 0 then LF ++ "        " else ""
    end ++ join_with (LF ++ "        ") (map join (chunks_fuel fuel 32 items)).
Proof.
  induction fuel as [|fuel IH]; intros items c Hlen Hc.
  - destruct items; [reflexivity|cbn in Hlen; lia].
  - destruct items as [|t items]; [reflexivity|].
    set (l := t :: items) in *.
    assert (Hne : firstn 32 l <> []) by (subst l; discriminate).
    change (chunks_fuel (S fuel) 32 l)
      with (firstn 32 l :: chunks_fuel fuel 32 (skipn 32 l)).
    rewrite <- (firstn_skipn 32 l) at 1.
    rewrite wrapped_from_app.
    rewrite (wrapped_from_line c (firstn 32 l)); trivial;
      [|rewrite length_firstn; lia].
    replace (match l with [] => "" | _ :: _ =>
               if c >? 0 then LF ++ "        " else "" end)
      with (if c >? 0 then LF ++ "        " else "") by (subst l; reflexivity).
    rewrite append_assoc. f_equal.
    cbn [map join_with]. f_equal.
    destruct (skipn 32 l) as [|b rest] eqn:Hskip.
    + rewrite chunks_fuel_nil. reflexivity.
    + assert (Hlong : (32 < List.length l)%nat).
      { destruct (Nat.le_gt_cases (List.length l) 32) as [Hle|Hgt]; [|exact Hgt].
        rewrite (skipn_all2 l Hle) in Hskip. discriminate. }
      assert (Hrest : (List.length (b :: rest) <= fuel)%nat).
      { rewrite <- Hskip, length_skipn. subst l. cbn [List.length] in *. lia. }
      replace (32 * c + Z.of_nat (List.length (firstn 32 l))) with (32 * (c + 1))
        by (rewrite length_firstn; lia).
      rewrite (IH (b :: rest) (c + 1)) by (trivial; lia).
      replace (c + 1 >? 0) with true by (symmetry; apply Z.gtb_lt; lia).
      destruct fuel as [|fuel']; [cbn in Hrest; lia|].
      reflexivity.
Qed.

Lemma wrapped_from_numbers (items : list string) :
  wrapped_from 0 items =
  join_with (LF ++ "        ") (map join (chunks 32 items)).
Proof.
  unfold chunks.
  pose proof (wrapped_from_chunks (List.length items) items 0
                (Nat.le_refl _) (Z.le_refl 0)) as Hchunks.
  change (32 * 0) with 0 in Hchunks. rewrite Hchunks.
  destruct items; reflexivity.
Qed.

Lemma emit_width_text (m : QFontMetrics) (fp : string) :
  fold_left (emit_width m) (for_range 0 chars_size 1) fp =
  fp ++ numbers_text (width_seq m).
Proof.
  unfold numbers_text, width_seq. rewrite <- wrapped_from_numbers.
  rewrite for_range_1, !map_map.
  apply (emit_numbers_wrapped
           (fun i => sprintf_d (width_px m (chars_at i)) ++ ",")).
Qed.

Lemma emit_advance_text (m : QFontMetrics) (fp : string) :
  fold_left (emit_advance m) (for_range 0 chars_size 1) fp =
  fp ++ numbers_text (advance_seq m).
Proof.
  unfold numbers_text, advance_seq. rewrite <- wrapped_from_numbers.
  rewrite for_range_1, !map_map.
  apply (emit_numbers_wrapped
           (fun i => sprintf_d (advance_px m (chars_at i)) ++ ",")).
Qed.

(** The file is the grammar applied to the height and the three
    sequences. *)
Lemma saveButton_text (m : QFontMetrics) (p : QPainter) :
  saveButton m p =
  artifact_text (charHeight m) (chars_seq m p) (width_seq m) (advance_seq m).
Proof.
  unfold saveButton, artifact_text. cbv zeta.
  rewrite emit_advance_text, emit_width_text, emit_glyphs_text.
  unfold fprintf, LF.
  repeat (progress (rewrite ?append_assoc; cbn [append])).
  reflexivity.
Qed.

(** ** The conversions read back *)

Lemma digit_value_char (d : Z) : 0 <= d < 16 -> digit_value (digit_char d) = d.
Proof.
  intros Hd.
  assert (Hall : forallb (fun d => digit_value (digit_char d) =? d)
                         (for_range 0 16 1) = true) by (vm_compute; reflexivity).
  rewrite forallb_forall in Hall.
  apply Z.eqb_eq, Hall, in_for_range_1. exact Hd.
Qed.

Lemma read_digits_cons (base : Z) (c : ascii) (s : string) (from : Z) :
  read_digits base (String c s) from =
  read_digits base s (from * base + digit_value c).
Proof. reflexivity. Qed.

Lemma read_digits_digits (base : Z) (Hbase : 2 <= base <= 16) :
  forall (fuel : nat) (n : Z) (acc : string),
    0 <= n < base ^ Z.of_nat fuel ->
    read_digits base (digits fuel base n acc) 0 = read_digits base acc n.
Proof.
  induction fuel as [|fuel IH]; intros n acc Hn.
  - cbn in Hn. cbn [digits]. f_equal. lia.
  - cbn [digits].
    assert (Hmod : 0 <= n mod base < 16).
    { pose proof (Z.mod_pos_bound n base ltac:(lia)). lia. }
    destruct (Z.eqb_spec (n / base) 0) as [Hq|Hq].
    + rewrite read_digits_cons, digit_value_char by exact Hmod.
      f_equal. pose proof (Z.div_mod n base ltac:(lia)). nia.
    + rewrite IH.
      * rewrite read_digits_cons, digit_value_char by exact Hmod.
        f_equal. pose proof (Z.div_mod n base ltac:(lia)). nia.
      * rewrite Nat2Z.inj_succ, Z.pow_succ_r in Hn by lia. split.
        -- apply Z.div_pos; lia.
        -- apply Z.div_lt_upper_bound; lia.
Qed.

(** [%x] writes the value of an [unsigned int]. *)
Lemma read_x_sprintf_x (value : Z) :
  0 <= value < 2 ^ 32 -> read_x (sprintf_x value) = value.
Proof.
  intros Hv. unfold read_x, sprintf_x, u32. rewrite Z.mod_small by exact Hv.
  rewrite read_digits_digits; [reflexivity|lia|]. exact Hv.
Qed.

Lemma digits_head (base : Z) (Hbase : 2 <= base <= 16) :
  forall (fuel : nat) (n : Z) (acc : string),
    0 <= n ->
    exists d rest, 0 <= d < base /\
      digits (S fuel) base n acc = String (digit_char d) rest.
Proof.
  induction fuel as [|fuel IH]; intros n acc Hn.
  - exists (n mod base), acc. split; [apply Z.mod_pos_bound; lia|].
    cbn [digits]. now destruct (n / base =? 0).
  - change (digits (S (S fuel)) base n acc)
      with (if n / base =? 0 then String (digit_char (n mod base)) acc
            else digits (S fuel) base (n / base)
                        (String (digit_char (n mod base)) acc)).
    destruct (n / base =? 0).
    + exists (n mod base), acc. split; [apply Z.mod_pos_bound; lia|reflexivity].
    + apply IH. apply Z.div_pos; lia.
Qed.

(** [%d] writes the value of an [int]. *)
Lemma read_d_sprintf_d (n : Z) :
  - 2 ^ 31 <= n < 2 ^ 31 -> read_d (sprintf_d n) = n.
Proof.
  intros Hn. unfold sprintf_d.
  destruct (Z.ltb_spec n 0) as [Hneg|Hpos].
  - cbn [append read_d]. rewrite read_digits_digits by (cbn; lia).
    unfold read_digits. cbn. lia.
  - destruct (digits_head 10 ltac:(lia) 9 n "" Hpos) as [d [rest [Hd Heq]]].
    assert (Hread : read_digits 10 (digits 10 10 n "") 0 = n).
    { rewrite read_digits_digits by (cbn; lia). reflexivity. }
    rewrite Heq in *. unfold read_d.
    assert (Hnot : digit_char d <> "-"%char).
    { assert (Hall : forallb (fun d => negb (Ascii.eqb (digit_char d) "-"))
                             (for_range 0 10 1) = true) by (vm_compute; reflexivity).
      rewrite forallb_forall in Hall.
      specialize (Hall d (proj2 (in_for_range_1 10 d) Hd)).
      apply negb_true_iff, Ascii.eqb_neq in Hall. exact Hall. }
    destruct (digit_char d) as [b0 b1 b2 b3 b4 b5 b6 b7] eqn:Hc.
    destruct b0, b1, b2, b3, b4, b5, b6, b7; try exact Hread.
    exfalso. apply Hnot. reflexivity.
Qed.

(** ** The value of a group as a numeral: lemmas *)

Lemma pack_byte_high_bits (image : QImage) (xByte left y n : Z) :
  left <= 32 -> left <= n -> Z.testbit (pack_byte image xByte left y) n = false.
Proof.
  intros Hleft Hn. rewrite pack_byte_bits by exact Hleft.
  destruct (existsb _ _) eqn:He; [|reflexivity].
  apply existsb_exists in He. destruct He as [c [Hin Hc]].
  apply in_for_range_1 in Hin. unfold sets_bit in Hc.
  apply andb_true_iff in Hc. destruct Hc as [_ Hc]. apply Z.eqb_eq in Hc. lia.
Qed.

Lemma numeral_bits (image : QImage) (xByte y : Z) :
  forall (n : nat) (i : Z), 0 <= i ->
    Z.testbit
      (fold_left (fun acc col => 2 * acc + Z.b2z (is_black image (xByte + col) y))
                 (map Z.of_nat (seq 0 n)) 0) i =
    if i <? Z.of_nat n then is_black image (xByte + (Z.of_nat n - 1 - i)) y
    else false.
Proof.
  induction n as [|n IH]; intros i Hi.
  - cbn [seq map fold_left]. rewrite Z.bits_0.
    destruct (Z.ltb_spec i (Z.of_nat 0)); [lia|reflexivity].
  - rewrite seq_S, map_app, fold_left_app. cbn [map fold_left Nat.add].
    destruct (Z.eq_dec i 0) as [->|Hne].
    + rewrite Z.testbit_0_r.
      destruct (Z.ltb_spec 0 (Z.of_nat (S n))); [|lia]. f_equal. lia.
    + replace i with (Z.succ (i - 1)) at 1 by lia.
      rewrite Z.testbit_succ_r by lia. rewrite IH by lia.
      destruct (Z.ltb_spec (i - 1) (Z.of_nat n)) as [H1|H1];
        destruct (Z.ltb_spec i (Z.of_nat (S n))) as [H2|H2];
        try reflexivity; try (exfalso; lia).
      f_equal. lia.
Qed.

(** The accumulated value is the numeral of the pixels of the group. *)
Lemma pack_byte_numeral (image : QImage) (xByte left y : Z) :
  left <= 32 -> pack_byte image xByte left y = numeral_of_pixels image xByte left y.
Proof.
  intros Hleft. apply Z.bits_inj'. intros i Hi.
  unfold numeral_of_pixels. rewrite for_range_1, numeral_bits by exact Hi.
  destruct (Z.ltb_spec i (Z.of_nat (Z.to_nat left))) as [Hlt|Hge].
  - replace i with ((left - 1) - (left - 1 - i)) at 1 by lia.
    rewrite pack_byte_column by lia. f_equal. lia.
  - apply pack_byte_high_bits; lia.
Qed.

(** ** The conversions and the printers of the Standard Library *)

Ltac digit_cases d H :=
  assert (d = 0 \/ d = 1 \/ d = 2 \/ d = 3 \/ d = 4 \/ d = 5 \/ d = 6 \/
          d = 7 \/ d = 8 \/ d = 9) as H by lia;
  repeat destruct H as [H|H]; rewrite H.

Lemma of_lu_digit (d : Z) (rest : Decimal.uint) :
  0 <= d <= 9 ->
  Z.of_N (Unsigned.of_lu (lu_digit d rest)) = d + 10 * Z.of_N (Unsigned.of_lu rest).
Proof.
  intros Hd. digit_cases d Hcase; cbn [lu_digit Unsigned.of_lu]; lia.
Qed.

Lemma string_of_lu_digit (d : Z) (rest : Decimal.uint) :
  0 <= d <= 9 ->
  NilEmpty.string_of_uint (lu_digit d rest) =
  String (digit_char d) (NilEmpty.string_of_uint rest).
Proof.
  intros Hd. digit_cases d Hcase; reflexivity.
Qed.

Lemma of_lu_little_digits :
  forall (fuel : nat) (n : Z), 0 <= n < 10 ^ Z.of_nat fuel ->
    Z.of_N (Unsigned.of_lu (little_digits fuel n)) = n.
Proof.
  induction fuel as [|fuel IH]; intros n Hn.
  - cbn in *. lia.
  - cbn [little_digits].
    pose proof (Z.mod_pos_bound n 10 ltac:(lia)) as Hmod.
    rewrite of_lu_digit by lia.
    pose proof (Z.div_mod n 10 ltac:(lia)) as Hdm.
    destruct (Z.eqb_spec (n / 10) 0) as [Hq|Hq].
    + cbn [Unsigned.of_lu]. lia.
    + rewrite IH; [lia|].
      rewrite Nat2Z.inj_succ, Z.pow_succ_r in Hn by lia.
      split; [apply Z.div_pos; lia|apply Z.div_lt_upper_bound; lia].
Qed.

Lemma revapp_lu_digit (d : Z) (rest acc : Decimal.uint) :
  Decimal.revapp (lu_digit d rest) acc = Decimal.revapp rest (lu_digit d acc).
Proof.
  unfold lu_digit. destruct d as [|q|q]; [reflexivity| |reflexivity].
  do 4 (try (destruct q as [q|q|]; try reflexivity)).
Qed.

Lemma string_of_little_digits :
  forall (fuel : nat) (n : Z) (acc : Decimal.uint), 0 <= n ->
    NilEmpty.string_of_uint (Decimal.revapp (little_digits fuel n) acc) =
    digits fuel 10 n (NilEmpty.string_of_uint acc).
Proof.
  induction fuel as [|fuel IH]; intros n acc Hn; [reflexivity|].
  cbn [little_digits digits].
  pose proof (Z.mod_pos_bound n 10 ltac:(lia)) as Hmod.
  rewrite revapp_lu_digit. rewrite <- string_of_lu_digit by lia.
  destruct (Z.eqb_spec (n / 10) 0) as [Hq|Hq]; [reflexivity|].
  apply IH. apply Z.div_pos; lia.
Qed.

Lemma little_digits_head :
  forall (fuel : nat) (n : Z) (acc : Decimal.uint), 0 < n < 10 ^ Z.of_nat fuel ->
    exists d rest, 1 <= d <= 9 /\
      Decimal.revapp (little_digits fuel n) acc = lu_digit d rest.
Proof.
  induction fuel as [|fuel IH]; intros n acc Hn.
  - cbn in Hn. lia.
  - cbn [little_digits]. rewrite revapp_lu_digit.
    pose proof (Z.mod_pos_bound n 10 ltac:(lia)) as Hmod.
    pose proof (Z.div_mod n 10 ltac:(lia)) as Hdm.
    destruct (Z.eqb_spec (n / 10) 0) as [Hq|Hq].
    + exists (n mod 10), acc. split; [lia|reflexivity].
    + apply IH. rewrite Nat2Z.inj_succ, Z.pow_succ_r in Hn by lia.
      assert (0 <= n / 10) by (apply Z.div_pos; lia).
      split; [lia|apply Z.div_lt_upper_bound; lia].
Qed.

Lemma unorm_lu_digit (d : Z) (rest : Decimal.uint) :
  1 <= d <= 9 -> Decimal.unorm (lu_digit d rest) = lu_digit d rest /\
                 lu_digit d rest <> Decimal.Nil.
Proof.
  intros Hd. digit_cases d Hcase; try lia; split; (reflexivity || discriminate).
Qed.

Lemma to_uint_little_digits (fuel : nat) (n : Z) :
  0 < n < 10 ^ Z.of_nat fuel ->
  N.to_uint (Z.to_N n) = Decimal.rev (little_digits fuel n).
Proof.
  intros Hn.
  destruct (little_digits_head fuel n Decimal.Nil Hn) as [d [rest [Hd Heq]]].
  fold (Decimal.rev (little_digits fuel n)) in Heq.
  destruct (unorm_lu_digit d rest Hd) as [Hnorm _].
  rewrite <- Heq in Hnorm. rewrite <- Hnorm.
  rewrite <- DecimalN.Unsigned.to_of. f_equal.
  unfold N.of_uint. rewrite Unsigned.of_lu_rev.
  apply N2Z.inj. rewrite of_lu_little_digits by lia. lia.
Qed.

Lemma sprintf_d_pos (n : Z) :
  0 < n < 10 ^ 10 ->
  digits 10 10 n "" = NilZero.string_of_uint (N.to_uint (Z.to_N n)).
Proof.
  intros Hn. rewrite (to_uint_little_digits 10 n) by exact Hn.
  destruct (little_digits_head 10 n Decimal.Nil Hn) as [d [rest [Hd Heq]]].
  fold (Decimal.rev (little_digits 10 n)) in Heq.
  destruct (unorm_lu_digit d rest Hd) as [_ Hnil].
  rewrite <- Heq in Hnil.
  transitivity (NilEmpty.string_of_uint (Decimal.rev (little_digits 10 n))).
  - unfold Decimal.rev. now rewrite string_of_little_digits by lia.
  - unfold NilZero.string_of_uint.
    destruct (Decimal.rev (little_digits 10 n)); [contradiction|reflexivity..].
Qed.

Lemma sprintf_d_decimal (n : Z) :
  - 10 ^ 10 < n < 10 ^ 10 -> sprintf_d n = decimal_text n.
Proof.
  intros Hn. unfold sprintf_d, decimal_text.
  destruct n as [|q|q].
  - reflexivity.
  - cbn [Z.ltb Z.compare]. rewrite sprintf_d_pos by lia. reflexivity.
  - cbn [Z.ltb Z.compare Z.opp]. rewrite sprintf_d_pos by lia. reflexivity.
Qed.

(** [0x%x] of a byte is the hexadecimal text of the Standard Library, in
    lowercase, of three or four characters. *)
Lemma sprintf_x_hex (value : Z) :
  0 <= value <= 255 ->
  "0x" ++ sprintf_x value = HexString.of_Z value /\
  lowercase_hex ("0x" ++ sprintf_x value) = true /\
  String.length ("0x" ++ sprintf_x value) = if value <? 16 then 3%nat else 4%nat.
Proof.
  intros Hv.
  assert (Hall : forallb (fun v =>
      String.eqb ("0x" ++ sprintf_x v) (HexString.of_Z v) &&
      lowercase_hex ("0x" ++ sprintf_x v) &&
      Nat.eqb (String.length ("0x" ++ sprintf_x v))
              (if v <? 16 then 3%nat else 4%nat))
    (for_range 0 256 1) = true) by (vm_compute; reflexivity).
  rewrite forallb_forall in Hall.
  specialize (Hall value (proj2 (in_for_range_1 256 value) ltac:(lia))).
  rewrite !andb_true_iff in Hall. destruct Hall as [[Heq Hlow] Hlen].
  apply String.eqb_eq in Heq. apply Nat.eqb_eq in Hlen. now repeat split.
Qed.

Lemma fits_int_range (n : Z) : fits_int n = true -> - 2 ^ 31 <= n < 2 ^ 31.
Proof.
  unfold fits_int. rewrite andb_true_iff, Z.leb_le, Z.ltb_lt. tauto.
Qed.

Lemma sprintf_d_int (n : Z) : fits_int n = true -> sprintf_d n = decimal_text n.
Proof.
  intros Hn. apply fits_int_range in Hn. apply sprintf_d_decimal.
  change (2 ^ 31) with 2147483648 in Hn.
  change (10 ^ 10) with 10000000000. lia.
Qed.

Lemma glyph_text_table (bytes : list Z) :
  Forall (fun value => 0 <= value <= 255) bytes ->
  glyph_text bytes = table_glyph_text bytes.
Proof.
  intros Hbytes. unfold glyph_text, table_glyph_text. do 3 f_equal.
  apply map_ext_in. intros value Hin. rewrite Forall_forall in Hbytes.
  specialize (Hbytes value Hin). unfold byte_text, table_byte_text.
  rewrite <- (sprintf_x_byte value Hbytes).
  destruct (sprintf_x_hex value Hbytes) as [Heq _]. rewrite <- Heq.
  now rewrite append_assoc.
Qed.

Lemma numbers_text_table (ns : list Z) :
  forallb fits_int ns = true -> numbers_text ns = table_numbers_text ns.
Proof.
  intros Hns. unfold numbers_text, table_numbers_text. do 3 f_equal.
  apply map_ext_in. intros n Hin. rewrite forallb_forall in Hns.
  now rewrite sprintf_d_int by auto.
Qed.

(** The file is the grammar of the printers of the Standard Library
    applied to the height and the three sequences. *)
Lemma saveButton_table (m : QFontMetrics) (p : QPainter) :
  fits_int (charHeight m) = true ->
  forallb fits_int (width_seq m) = true ->
  forallb fits_int (advance_seq m) = true ->
  saveButton m p =
  font_table_text (charHeight m) (chars_seq m p) (width_seq m) (advance_seq m).
Proof.
  intros Hh Hw Ha. rewrite saveButton_text. unfold artifact_text, font_table_text.
  rewrite (sprintf_d_int _ Hh), (numbers_text_table _ Hw), (numbers_text_table _ Ha).
  assert (Hg : map glyph_text (chars_seq m p) =
               map table_glyph_text (chars_seq m p)).
  { apply map_ext_in. intros bytes Hin.
    apply glyph_text_table. unfold chars_seq in Hin. apply in_map_iff in Hin.
    destruct Hin as [ch [<- _]]. apply pack_glyph_range. }
  now rewrite Hg.
Qed.

(** * The claims *)

(** ** Reported width *)

(** C1, counterexample: for the rectangle (2, 0, 3, 1) the number written
    into [width] is 5, the right edge plus one, while the width of the
    rectangle of the oracle is 3. *)
Lemma C1_width_px_counterexample :
  let m := mock_metrics 1 (QRect_ 2 0 3 1) 4 in
  width (boundingRect m "A") = 3 /\
  width_px m "A" = 5 /\
  nth 33 (width_seq m) 0 = 5 /\
  width_px m "A" <> width (boundingRect m "A").
Proof. cbv zeta. repeat split; try reflexivity. discriminate. Qed.

(** C1, as amended: every entry of the [width] sequence is [rx + rw], the
    right edge of the bounding rectangle plus one, where (rx, ry, rw, rh) is
    what the oracle answers; [r.setX(0)] moves the left edge only.  It is
    [rw] when [rx = 0]. *)
Theorem C1_width_px_is_right_edge (m : QFontMetrics) :
  width_seq m =
    map (fun ch => x (boundingRect m ch) + width (boundingRect m ch)) chars /\
  (forall ch, width_px m ch = x2 (boundingRect m ch) + 1) /\
  (forall h rx ry rw rh advance ch,
      width_px (mock_metrics h (QRect_ rx ry rw rh) advance) ch = rx + rw).
Proof.
  split; [|split].
  - unfold width_seq. rewrite (map_chars_at (width_px m)).
    apply map_ext. intros ch. apply width_px_eq.
  - intros ch. rewrite width_px_eq. unfold x, width. lia.
  - intros h rx ry rw rh advance ch. rewrite width_px_eq.
    unfold x, width. cbn. lia.
Qed.

(** ** Column scan *)

(** C2, counterexample: for the rectangle (2, 0, 3, 1) the scan has one
    group starting at column 0 with [left = 5], and the first pixel read is
    (0, 0); the claimed scan would be one group starting at column 2 with
    [left = 3]. *)
Lemma C2_column_scan_counterexample :
  let m := mock_metrics 1 (QRect_ 2 0 3 1) 4 in
  column_groups (glyph_rect m "A") = [(0, 5)] /\
  claimed_column_groups 2 3 = [(2, 3)] /\
  hd_error (glyph_pixel_reads m "A") = Some (0, 0) /\
  column_groups (glyph_rect m "A") <> claimed_column_groups 2 3.
Proof. cbv zeta. repeat split; try reflexivity. discriminate. Qed.

(** C2, as amended: for a bounding rectangle (rx, ry, rw, rh) the column
    scan starts at [xByte = 0], steps by 8 and continues while
    [xByte < rx + rw]; each group covers [left = min(8, (rx + rw) - xByte)]
    columns.  A glyph with [rx > 0] is packed from raster column 0. *)
Theorem C2_column_scan_from_zero (m : QFontMetrics) (ch : string) :
  let rx := x (boundingRect m ch) in
  let rw := width (boundingRect m ch) in
  map fst (column_groups (glyph_rect m ch)) = for_range 0 (rx + rw) 8 /\
  column_groups (glyph_rect m ch) =
    map (fun k => (8 * Z.of_nat k, Z.min 8 (rx + rw - 8 * Z.of_nat k)))
        (seq 0 (Z.to_nat ((rx + rw + 7) / 8))).
Proof.
  cbv zeta. split.
  - unfold column_groups. rewrite map_map. cbn [fst].
    now rewrite map_id, glyph_rect_bound.
  - now rewrite column_groups_closed, glyph_rect_bound.
Qed.

(** ** Rectangles larger than the buffer *)

(** C3, counterexample: for the rectangle (0, 0, 101, 1) and line height 1
    the glyph is packed into 13 bytes and the pixel (100, 0), which lies
    outside the 100 by 100 buffer, is read; nothing fails. *)
Lemma C3_overflow_counterexample :
  let m := mock_metrics 1 (QRect_ 0 0 101 1) 4 in
  let p := mock_painter [] in
  In (100, 0) (glyph_pixel_reads m "A") /\
  in_buffer (100, 0) = false /\
  List.length (glyph_bytes m p "A") = 13%nat.
Proof.
  cbv zeta. split; [|split; reflexivity].
  apply in_glyph_reads. rewrite glyph_rect_bound. cbn. lia.
Qed.

(** C3, as amended: there is no bounds check and no error.  For every
    bounding rectangle and line height the glyph is packed, and the pixels
    read are exactly those of columns 0 .. rx + rw - 1 and rows 0 .. H - 1;
    when [rx + rw > 100] or [H > 100] (and the scan is not empty) some of
    them lie outside the 100 by 100 buffer. *)
Theorem C3_scan_is_unchecked (m : QFontMetrics) (ch : string) :
  let bound := x (boundingRect m ch) + width (boundingRect m ch) in
  (forall c y, In (c, y) (glyph_pixel_reads m ch) <->
               0 <= c < bound /\ 0 <= y < charHeight m) /\
  ((100 < bound /\ 0 < charHeight m) \/ (100 < charHeight m /\ 0 < bound) ->
   exists q, In q (glyph_pixel_reads m ch) /\ in_buffer q = false).
Proof.
  cbv zeta.
  assert (Hreads : forall c y, In (c, y) (glyph_pixel_reads m ch) <->
    0 <= c < x (boundingRect m ch) + width (boundingRect m ch) /\
    0 <= y < charHeight m).
  { intros c y. unfold glyph_pixel_reads.
    now rewrite in_glyph_reads, glyph_rect_bound. }
  split; [exact Hreads|].
  intros [[Hw Hh]|[Hh Hw]].
  - exists (100, 0). split; [apply Hreads; lia|reflexivity].
  - exists (0, 100). split; [apply Hreads; lia|reflexivity].
Qed.

Lemma C3_scan_is_unchecked_witness :
  let m := mock_metrics 1 (QRect_ 0 0 101 1) 4 in
  exists q, In q (glyph_pixel_reads m "A") /\ in_buffer q = false.
Proof.
  cbv zeta.
  apply (proj2 (C3_scan_is_unchecked (mock_metrics 1 (QRect_ 0 0 101 1) 4) "A")).
  left. cbn. lia.
Defined.

(** ** Length of the sequences *)

(** C4, counterexample: the repertoire of lines 13-24 has 170 entries, not
    186. *)
Lemma C4_repertoire_size_counterexample :
  List.length chars = 170%nat /\ List.length chars <> 186%nat.
Proof. split; [reflexivity|discriminate]. Qed.

(** C4, as amended: the repertoire is a constant of exactly 170 entries,
    and in every run the [chars], [width] and [advance] sequences have
    exactly 170 elements each, one per repertoire entry in repertoire
    order. *)
Theorem C4_sequences_follow_repertoire (m : QFontMetrics) (p : QPainter) :
  List.length chars = 170%nat /\
  chars_seq m p = map (glyph_bytes m p) chars /\
  width_seq m = map (width_px m) chars /\
  advance_seq m = map (advance_px m) chars /\
  List.length (chars_seq m p) = 170%nat /\
  List.length (width_seq m) = 170%nat /\
  List.length (advance_seq m) = 170%nat.
Proof.
  assert (Hw : width_seq m = map (width_px m) chars)
    by apply (map_chars_at (width_px m)).
  assert (Ha : advance_seq m = map (advance_px m) chars)
    by apply (map_chars_at (advance_px m)).
  repeat split; trivial; rewrite ?Hw, ?Ha; unfold chars_seq;
    now rewrite length_map.
Qed.

(** ** Byte count *)

(** C5: with line height H (a pixel count, so not negative) and reported
    width w, the glyph has H * ceil(w / 8) packed bytes when w > 0 and none
    otherwise; [(w + 7) / 8] is the ceiling, the one c with
    8 (c - 1) < w <= 8 c. *)
Theorem C5_byte_count (m : QFontMetrics) (p : QPainter) (ch : string) :
  0 <= charHeight m ->
  let w := width_px m ch in
  Z.of_nat (List.length (glyph_bytes m p ch)) =
    (if 0 <? w then charHeight m * ((w + 7) / 8) else 0) /\
  8 * ((w + 7) / 8 - 1) < w <= 8 * ((w + 7) / 8).
Proof.
  intros Hh w. split; [|Z.div_mod_to_equations; lia].
  unfold glyph_bytes. rewrite length_pack_glyph, glyph_rect_bound.
  rewrite <- width_px_eq. fold w.
  rewrite Nat2Z.inj_mul, Z2Nat.id by exact Hh.
  destruct (Z.ltb_spec 0 w) as [Hw|Hw].
  - rewrite Z2Nat.id; [reflexivity|]. Z.div_mod_to_equations; lia.
  - assert (Hq : (w + 7) / 8 <= 0) by (Z.div_mod_to_equations; lia).
    replace (Z.to_nat ((w + 7) / 8)) with 0%nat by lia. lia.
Qed.

Lemma C5_byte_count_witness :
  let m := mock_metrics 3 (QRect_ 0 0 9 3) 10 in
  let p := mock_painter [(0, 0)] in
  Z.of_nat (List.length (glyph_bytes m p "A")) = 6 /\ width_px m "A" = 9.
Proof.
  cbv zeta. split; [|reflexivity].
  apply (proj1 (C5_byte_count (mock_metrics 3 (QRect_ 0 0 9 3) 10)
                              (mock_painter [(0, 0)]) "A" ltac:(cbn; lia))).
Defined.

(** ** Bit order *)

(** C6: in row y of a glyph, for the column group number j (so
    [xByte = 8 j]) of width [left], bit [(left - 1) - col] of the emitted
    byte is set exactly when the pixel (xByte + col, y) has a blue channel
    below 128, for each col in [0, left).  So the leftmost pixel of a group
    is bit [left - 1], which is the most significant bit of the byte when
    the group is full, and the rightmost pixel is bit 0. *)
Theorem C6_bit_order
    (m : QFontMetrics) (p : QPainter) (ch : string) (row j col : Z) :
  let image := glyph_image m p ch in
  let bound := width_px m ch in
  let xByte := 8 * j in
  let left := Z.min 8 (bound - xByte) in
  let value :=
    nth (Z.to_nat (row * ((bound + 7) / 8) + j)) (glyph_bytes m p ch) 0 in
  0 <= row < charHeight m -> 0 <= j -> xByte < bound -> 0 <= col < left ->
  Z.testbit value ((left - 1) - col) =
    (qBlue (pixel image (xByte + col) row) <? 128) /\
  Z.testbit value (left - 1) = (qBlue (pixel image xByte row) <? 128) /\
  Z.testbit value 0 = (qBlue (pixel image (xByte + (left - 1)) row) <? 128) /\
  (left = 8 ->
   Z.testbit value 7 = (qBlue (pixel image xByte row) <? 128)).
Proof.
  intros image bound xByte left value Hrow Hj Hbound Hcol.
  assert (Hb : x (glyph_rect m ch) + width (glyph_rect m ch) = bound).
  { subst bound. now rewrite glyph_rect_bound, width_px_eq. }
  assert (Hvalue : value = pack_byte image xByte left row).
  { subst value xByte left. unfold glyph_bytes. rewrite <- Hb.
    apply nth_pack_glyph; lia. }
  assert (Hleft : left <= 32) by (subst left; lia).
  assert (Hbit : forall c, 0 <= c < left ->
    Z.testbit value ((left - 1) - c) = is_black image (xByte + c) row).
  { intros c Hc. rewrite Hvalue. now apply pack_byte_column. }
  fold (is_black image (xByte + col) row).
  fold (is_black image xByte row).
  fold (is_black image (xByte + (left - 1)) row).
  split; [now apply Hbit|].
  assert (H0 : Z.testbit value (left - 1) = is_black image xByte row).
  { rewrite <- (Z.add_0_r xByte) at 1. rewrite <- (Hbit 0) by lia.
    f_equal. lia. }
  split; [exact H0|]. split.
  - rewrite <- (Hbit (left - 1)) by lia. f_equal. lia.
  - intros H8. rewrite <- H0. f_equal. lia.
Qed.

Lemma C6_bit_order_witness :
  let m := mock_metrics 2 (QRect_ 0 0 11 2) 12 in
  let p := mock_painter [(8, 1)] in
  Z.testbit (nth 3 (glyph_bytes m p "A") 0) 2 = true /\
  glyph_bytes m p "A" = [0; 0; 0; 4].
Proof.
  cbv zeta. split; [|reflexivity].
  apply (proj1 (C6_bit_order (mock_metrics 2 (QRect_ 0 0 11 2) 12)
                             (mock_painter [(8, 1)]) "A" 1 1 0
                  ltac:(cbn; lia) ltac:(lia) ltac:(cbn; lia) ltac:(cbn; lia))).
Defined.

(** ** Row range *)

(** C7: the rectangle painted and scanned has y = 0 and height H, the
    line height of the metrics, whatever the oracle answered for y and
    height.  The glyph has H rows of ceil(w / 8) bytes each, w being the
    reported width: the pixels read are those of the rows 0 .. H - 1 and no
    others, the byte number j of row number [row] is the numeral of the
    pixels of that row, and nothing changes when the vertical extent
    answered by the oracle does. *)
Theorem C7_rows_cover_line_height
    (m : QFontMetrics) (p : QPainter) (ch : string) (ry rh : Z) :
  let H := metrics_height m in
  let w := width_px m ch in
  charHeight m = H /\
  y (glyph_rect m ch) = 0 /\
  height (glyph_rect m ch) = H /\
  glyph_image m p ch =
    drawText p (qRgb 0 0 0) (mkQRect 0 0 (x2 (boundingRect m ch)) (H - 1)) ch
             (fill (qRgb 255 255 255)) /\
  glyph_bytes m p ch =
    flat_map (fun k => pack_row (glyph_image m p ch) (glyph_rect m ch)
                         (Z.of_nat k))
             (seq 0 (Z.to_nat H)) /\
  List.length (glyph_bytes m p ch) =
    (Z.to_nat H * Z.to_nat ((w + 7) / 8))%nat /\
  (forall c row, In (c, row) (glyph_pixel_reads m ch) <->
                 0 <= c < w /\ 0 <= row < H) /\
  (forall row j, 0 <= row < H -> 0 <= j -> 8 * j < w ->
     nth (Z.to_nat (row * ((w + 7) / 8) + j)) (glyph_bytes m p ch) 0 =
     numeral_of_pixels (glyph_image m p ch) (8 * j) (Z.min 8 (w - 8 * j)) row) /\
  glyph_rect (with_vertical m ry rh) ch = glyph_rect m ch /\
  glyph_bytes (with_vertical m ry rh) p ch = glyph_bytes m p ch.
Proof.
  intros H w.
  assert (Hrect : glyph_rect (with_vertical m ry rh) ch = glyph_rect m ch).
  { rewrite !glyph_rect_eq. unfold charHeight, with_vertical, QRect_, x, width.
    cbn. f_equal. lia. }
  assert (Hb : x (glyph_rect m ch) + width (glyph_rect m ch) = w).
  { subst w. now rewrite glyph_rect_bound, width_px_eq. }
  split; [reflexivity|].
  split; [now rewrite glyph_rect_eq|].
  split; [rewrite glyph_rect_eq; unfold height, charHeight; subst H; cbn; lia|].
  split; [unfold glyph_image; now rewrite glyph_rect_eq|].
  split; [unfold glyph_bytes; apply pack_glyph_rows|].
  split; [unfold glyph_bytes; now rewrite length_pack_glyph, Hb|].
  split.
  - intros c row. unfold glyph_pixel_reads.
    now rewrite in_glyph_reads, Hb.
  - split.
    + intros row j Hrow Hj Hw. unfold glyph_bytes. rewrite <- Hb.
      rewrite nth_pack_glyph by (trivial; lia).
      apply pack_byte_numeral. lia.
    + split; [exact Hrect|].
      unfold glyph_bytes, glyph_image. rewrite Hrect. reflexivity.
Qed.

Lemma C7_rows_cover_line_height_witness :
  let m := mock_metrics 3 (QRect_ 0 5 1 7) 4 in
  let p := mock_painter [(0, 0); (0, 2)] in
  nth 2 (glyph_bytes m p "|") 0 =
    numeral_of_pixels (glyph_image m p "|") 0 1 2 /\
  glyph_bytes m p "|" = [1; 0; 1].
Proof.
  cbv zeta. split; [|reflexivity].
  pose proof (C7_rows_cover_line_height
                (mock_metrics 3 (QRect_ 0 5 1 7) 4)
                (mock_painter [(0, 0); (0, 2)]) "|" 0 0) as Hc7.
  cbv zeta in Hc7.
  destruct Hc7 as [_ [_ [_ [_ [_ [_ [_ [Hrows _]]]]]]]].
  exact (Hrows 2 0 ltac:(cbn; lia) ltac:(lia) ltac:(cbn; lia)).
Defined.

(** ** Empty glyphs *)

(** C8, counterexample: a rectangle of height 0 and width 3 gives, with
    line height 2, two packed bytes and the reported width 3; a rectangle
    of width 0 whose left edge is 2 gives the reported width 2 and one
    byte per row. *)
Lemma C8_empty_glyph_counterexample :
  let p := mock_painter [] in
  let m := mock_metrics 2 (QRect_ 0 0 3 0) 4 in
  let m' := mock_metrics 2 (QRect_ 2 0 0 5) 4 in
  height (boundingRect m " ") = 0 /\
  glyph_bytes m p " " = [0; 0] /\ width_px m " " = 3 /\
  width (boundingRect m' " ") = 0 /\
  glyph_bytes m' p " " = [0; 0] /\ width_px m' " " = 2.
Proof. cbv zeta. repeat split; reflexivity. Qed.

(** C8, as amended: for every character whose bounding rectangle has
    [rx + rw = 0] (so for [rx = 0] and [rw = 0]), whatever its height, no
    byte is packed and the reported width is 0, while the advance recorded
    is the advance of the oracle. *)
Theorem C8_empty_glyph (m : QFontMetrics) (p : QPainter) (ch : string) :
  x (boundingRect m ch) + width (boundingRect m ch) = 0 ->
  glyph_bytes m p ch = [] /\
  width_px m ch = 0 /\
  advance_px m ch = horizontalAdvance m ch /\
  advance_seq m = map (horizontalAdvance m) chars.
Proof.
  intros Hw. split; [|split; [|split]].
  - apply length_zero_iff_nil. unfold glyph_bytes.
    rewrite length_pack_glyph, glyph_rect_bound, Hw. cbn. lia.
  - now rewrite width_px_eq.
  - reflexivity.
  - apply (map_chars_at (advance_px m)).
Qed.

Lemma C8_empty_glyph_witness :
  let m := mock_metrics 8 (QRect_ 0 0 0 0) 4 in
  glyph_bytes m (mock_painter []) " " = [] /\
  width_px m " " = 0 /\
  advance_px m " " = 4.
Proof.
  cbv zeta.
  pose proof (C8_empty_glyph (mock_metrics 8 (QRect_ 0 0 0 0) 4)
                (mock_painter []) " " eq_refl) as H.
  split; [exact (proj1 H)|].
  split; [exact (proj1 (proj2 H))|].
  exact (proj1 (proj2 (proj2 H))).
Defined.

(** ** Output format *)

(** C9: the file is the grammar [artifact_text] applied to the height and
    the three sequences, and, for a run whose height, widths and advances
    are C ints, it is the grammar [font_table_text] of the printers of the
    Standard Library.  Every packed byte is written as [0x], its lowercase
    hexadecimal digits without padding (one digit below 16, two
    otherwise) and a comma, the last byte of a glyph included; every width
    and advance is written in decimal followed by a comma, and a line break
    is written before the entries number 32, 64, ..., that is 32 entries to
    a line. *)
Theorem C9_artifact_format (m : QFontMetrics) (p : QPainter) :
  saveButton m p =
    artifact_text (charHeight m) (chars_seq m p) (width_seq m) (advance_seq m) /\
  (forall fp ch, emit_glyph m p fp ch = fp ++ glyph_text (glyph_bytes m p ch)) /\
  Forall (Forall (fun value =>
            byte_text value = "0x" ++ sprintf_x value ++ "," /\
            read_x (sprintf_x value) = value))
         (chars_seq m p) /\
  (forall fp i,
      emit_width m fp i =
      fp ++ (if (i >? 0) && (i mod 32 =? 0) then LF ++ "        " else "") ++
      sprintf_d (width_px m (chars_at i)) ++ ",") /\
  (forall fp i,
      emit_advance m fp i =
      fp ++ (if (i >? 0) && (i mod 32 =? 0) then LF ++ "        " else "") ++
      sprintf_d (advance_px m (chars_at i)) ++ ",") /\
  (fits_int (charHeight m) = true ->
   forallb fits_int (width_seq m) = true ->
   forallb fits_int (advance_seq m) = true ->
   saveButton m p =
     font_table_text (charHeight m) (chars_seq m p)
                     (width_seq m) (advance_seq m)) /\
  Forall (Forall (fun value =>
            "0x" ++ sprintf_x value = HexString.of_Z value /\
            lowercase_hex ("0x" ++ sprintf_x value) = true /\
            String.length ("0x" ++ sprintf_x value) =
              if value <? 16 then 3%nat else 4%nat))
         (chars_seq m p) /\
  (forall n, fits_int n = true ->
     sprintf_d n = NilZero.string_of_int (Z.to_int n)).
Proof.
  split; [apply saveButton_text|].
  split; [intros fp ch; apply emit_glyph_text|].
  split; [|split; [|split; [|split; [|split]]]].
  - unfold chars_seq. apply Forall_map, Forall_forall. intros ch _.
    apply Forall_forall. intros value Hin.
    pose proof (pack_glyph_range (glyph_image m p ch) (glyph_rect m ch)
                                 (charHeight m)) as Hrange.
    rewrite Forall_forall in Hrange. specialize (Hrange value Hin).
    split.
    + unfold byte_text. now rewrite sprintf_x_byte.
    + apply read_x_sprintf_x. change (2 ^ 32) with 4294967296. lia.
  - intros fp i. unfold emit_width, wrap_line, fprintf. cbv zeta.
    destruct ((i >? 0) && (i mod 32 =? 0)); now rewrite ?append_assoc.
  - intros fp i. unfold emit_advance, wrap_line, fprintf. cbv zeta.
    destruct ((i >? 0) && (i mod 32 =? 0)); now rewrite ?append_assoc.
  - apply saveButton_table.
  - unfold chars_seq. apply Forall_map, Forall_forall. intros ch _.
    apply Forall_forall. intros value Hin.
    pose proof (pack_glyph_range (glyph_image m p ch) (glyph_rect m ch)
                                 (charHeight m)) as Hrange.
    rewrite Forall_forall in Hrange. specialize (Hrange value Hin).
    now apply sprintf_x_hex.
  - intros n Hn. now apply sprintf_d_int.
Qed.

Lemma C9_artifact_format_witness :
  let m := mock_metrics 2 (QRect_ 0 0 9 2) 10 in
  let p := mock_painter [(0, 0); (8, 1)] in
  saveButton m p =
  font_table_text 2 (repeat [128; 0; 0; 1] 170) (repeat 9 170) (repeat 10 170).
Proof.
  cbv zeta.
  pose proof (C9_artifact_format (mock_metrics 2 (QRect_ 0 0 9 2) 10)
                                 (mock_painter [(0, 0); (8, 1)])) as Hc9.
  destruct Hc9 as [_ [_ [_ [_ [_ [Htable _]]]]]].
  exact (Htable eq_refl eq_refl eq_refl).
Defined.

(** ** Range of the packed values *)

(** C10: every value the packer prints lies in [0, 255], for every
    character, row and column group: [left] is at most 8 and the bit
    positions [(left - 1) - x] lie in [0, 7]. *)
Theorem C10_bytes_fit (m : QFontMetrics) (p : QPainter) (ch : string) :
  Forall (fun value => 0 <= value <= 255) (glyph_bytes m p ch) /\
  Forall (fun g =>
            1 <= snd g <= 8 /\
            Forall (fun col => 0 <= (snd g - 1) - col <= 7)
                   (for_range 0 (snd g) 1))
         (column_groups (glyph_rect m ch)) /\
  Forall (Forall (fun value => 0 <= value <= 255)) (chars_seq m p).
Proof.
  split; [apply pack_glyph_range|]. split.
  - apply Forall_forall. intros g Hg. apply column_groups_left in Hg.
    split; [lia|]. apply Forall_forall. intros col Hcol.
    apply in_for_range_1 in Hcol. lia.
  - unfold chars_seq. apply Forall_map, Forall_forall.
    intros c _. apply pack_glyph_range.
Qed.

(** * Worked examples *)

(** An empty rectangle with advance 4 and line height 8. *)
Example empty_glyph :
  let m := mock_metrics 8 (QRect_ 0 0 0 0) 4 in
  glyph_bytes m (mock_painter []) " " = [] /\
  width_px m " " = 0 /\ advance_px m " " = 4.
Proof. repeat split. Qed.

(** One black pixel in a rectangle of one column. *)
Example single_pixel :
  let m := mock_metrics 1 (QRect_ 0 0 1 1) 1 in
  glyph_bytes m (mock_painter [(0, 0)]) "." = [1] /\ width_px m "." = 1.
Proof. split; reflexivity. Qed.

(** A black row of eight columns, then of nine. *)
Example full_row_8 :
  let m := mock_metrics 1 (QRect_ 0 0 8 1) 8 in
  let row := [(0, 0); (1, 0); (2, 0); (3, 0); (4, 0); (5, 0); (6, 0); (7, 0)] in
  glyph_bytes m (mock_painter row) "-" = [255] /\ width_px m "-" = 8.
Proof. split; reflexivity. Qed.

Example full_row_9 :
  let m := mock_metrics 1 (QRect_ 0 0 9 1) 9 in
  let row := [(0, 0); (1, 0); (2, 0); (3, 0); (4, 0); (5, 0); (6, 0); (7, 0);
              (8, 0)] in
  glyph_bytes m (mock_painter row) "-" = [255; 1] /\ width_px m "-" = 9.
Proof. split; reflexivity. Qed.

(** The left pixel of a group of two columns is bit 1. *)
Example left_pixel_of_two :
  let m := mock_metrics 1 (QRect_ 0 0 2 1) 2 in
  glyph_bytes m (mock_painter [(0, 0)]) "'" = [2] /\ width_px m "'" = 2.
Proof. split; reflexivity. Qed.

(** A vertical line of three rows. *)
Example vertical_line :
  let m := mock_metrics 3 (QRect_ 0 0 1 3) 1 in
  glyph_bytes m (mock_painter [(0, 0); (0, 1); (0, 2)]) "|" = [1; 1; 1].
Proof. reflexivity. Qed.

(** A rectangle whose left edge is column 2: the two columns in front of
    it are packed too, and the reported width counts them. *)
Example left_bearing :
  let m := mock_metrics 1 (QRect_ 2 0 3 1) 6 in
  glyph_bytes m (mock_painter [(2, 0)]) "j" = [4] /\
  glyph_pixel_reads m "j" = [(0, 0); (1, 0); (2, 0); (3, 0); (4, 0)] /\
  width_px m "j" = 5.
Proof. repeat split. Qed.

(** The text of a glyph line and of a sequence of 33 numbers. *)
Example glyph_line :
  glyph_text [255; 1; 0; 171] = "        &[0xff,0x1,0x0,0xab,]," ++ LF.
Proof. reflexivity. Qed.

Example number_lines :
  numbers_text (repeat 7 33) =
  "7,7,7,7,7,7,7,7,7,7,7,7,7,7,7,7,7,7,7,7,7,7,7,7,7,7,7,7,7,7,7,7," ++ LF ++
  "        7,".
Proof. reflexivity. Qed.

(** * Further properties of the packer *)

(** ** The order of the reads *)

Lemma map_flat_map {A B C : Type} (f : B -> C) (g : A -> list B) (l : list A) :
  map f (flat_map g l) = flat_map (fun a => map f (g a)) l.
Proof.
  induction l as [|a l IH]; cbn [flat_map map]; [reflexivity|].
  now rewrite map_app, IH.
Qed.

Lemma seq_from (m start : nat) :
  map (fun i => (start + i)%nat) (seq 0 m) = seq start m.
Proof.
  revert start. induction m as [|m IH]; intros start; [reflexivity|].
  cbn [seq map]. rewrite Nat.add_0_r. f_equal.
  rewrite <- seq_shift, map_map, <- (IH (S start)).
  apply map_ext. intros i. lia.
Qed.

(** The groups of a row, one after the other, are the columns
    8 k0, 8 k0 + 1, ..., bound - 1. *)
Lemma group_columns_concat (bound : Z) :
  forall (n k0 : nat),
    n = Z.to_nat ((bound - 8 * Z.of_nat k0 + 7) / 8) ->
    flat_map (fun k => map (fun i => 8 * Z.of_nat k + Z.of_nat i)
                           (seq 0 (Z.to_nat (Z.min 8 (bound - 8 * Z.of_nat k)))))
             (seq k0 n) =
    map Z.of_nat (seq (8 * k0) (Z.to_nat (bound - 8 * Z.of_nat k0))).
Proof.
  induction n as [|n IH]; intros k0 Hn.
  - assert (Hle : bound - 8 * Z.of_nat k0 <= 0) by (Z.div_mod_to_equations; lia).
    replace (Z.to_nat (bound - 8 * Z.of_nat k0)) with 0%nat by lia.
    reflexivity.
  - assert (Hpos : 0 < bound - 8 * Z.of_nat k0) by (Z.div_mod_to_equations; lia).
    cbn [seq flat_map]. rewrite (IH (S k0)) by (Z.div_mod_to_equations; lia).
    set (m := Z.to_nat (Z.min 8 (bound - 8 * Z.of_nat k0))).
    replace (Z.to_nat (bound - 8 * Z.of_nat k0))
      with (m + Z.to_nat (bound - 8 * Z.of_nat (S k0)))%nat by (subst m; lia).
    rewrite seq_app, map_app. f_equal.
    + rewrite <- (seq_from m (8 * k0)), map_map.
      apply map_ext. intros i. lia.
    + destruct (Z.le_gt_cases 8 (bound - 8 * Z.of_nat k0)) as [Hfull|Hpart].
      * replace m with 8%nat by (subst m; lia). do 2 f_equal. lia.
      * replace (Z.to_nat (bound - 8 * Z.of_nat (S k0))) with 0%nat by lia.
        reflexivity.
Qed.

Lemma row_reads_exact (r : QRect) (y : Z) :
  row_reads r y =
  map (fun c => (Z.of_nat c, y)) (seq 0 (Z.to_nat (x r + width r))).
Proof.
  unfold row_reads, byte_reads.
  rewrite column_groups_closed, flat_map_map. cbn [fst snd].
  rewrite <- (map_map Z.of_nat (fun c => (c, y))).
  pose proof (group_columns_concat (x r + width r)
                (Z.to_nat ((x r + width r + 7) / 8)) 0
                ltac:(f_equal; f_equal; lia)) as Hcols.
  change (8 * 0)%nat with 0%nat in Hcols.
  replace (x r + width r - 8 * Z.of_nat 0) with (x r + width r) in Hcols by lia.
  rewrite <- Hcols, map_flat_map. apply flat_map_ext. intros k.
  rewrite for_range_1, !map_map. reflexivity.
Qed.

Lemma glyph_reads_exact (r : QRect) (h : Z) :
  glyph_reads r h = region (x r + width r) h.
Proof.
  unfold glyph_reads, region. rewrite for_range_1, flat_map_map.
  apply flat_map_ext. intros row. apply row_reads_exact.
Qed.

Lemma NoDup_map_injective {A B : Type} (f : A -> B) (l : list A) :
  (forall a b, f a = f b -> a = b) -> NoDup l -> NoDup (map f l).
Proof.
  intros Hinj Hl. induction Hl as [|a l Ha Hl IH]; cbn [map]; constructor.
  - intros Hin. apply in_map_iff in Hin. destruct Hin as [b [Hb Hin]].
    apply Hinj in Hb. now subst.
  - exact IH.
Qed.

Lemma region_NoDup (cols rows : Z) : NoDup (region cols rows).
Proof.
  unfold region.
  assert (Hrows : NoDup (seq 0 (Z.to_nat rows))) by apply seq_NoDup.
  revert Hrows. generalize (seq 0 (Z.to_nat rows)) as l. intros l.
  induction l as [|row l IH]; intros Hl; cbn [flat_map]; [constructor|].
  apply NoDup_cons_iff in Hl. destruct Hl as [Hrow Hl].
  apply NoDup_app.
  - apply NoDup_map_injective; [|apply seq_NoDup].
    intros a b Hab. apply pair_equal_spec in Hab. lia.
  - now apply IH.
  - intros q Hq Hq'. apply in_map_iff in Hq. destruct Hq as [c [<- _]].
    apply in_flat_map in Hq'. destruct Hq' as [row' [Hrow' Hq']].
    apply in_map_iff in Hq'. destruct Hq' as [c' [Heq _]].
    apply pair_equal_spec in Heq. destruct Heq as [_ Heq].
    apply Nat2Z.inj in Heq. subst row'. contradiction.
Qed.

Lemma length_region (cols rows : Z) :
  List.length (region cols rows) = (Z.to_nat rows * Z.to_nat cols)%nat.
Proof.
  unfold region. rewrite (length_flat_map_const _ (Z.to_nat cols)).
  - now rewrite length_seq.
  - intros row _. now rewrite length_map, length_seq.
Qed.

(** X1: for every glyph the pixels read from the image are those of the
    columns 0 .. w - 1 and the rows 0 .. H - 1, row by row and from left to
    right within a row, each exactly once; w is the reported width and H
    the line height. *)
Theorem X1_reads_row_major (m : QFontMetrics) (ch : string) :
  glyph_pixel_reads m ch = region (width_px m ch) (charHeight m) /\
  NoDup (glyph_pixel_reads m ch) /\
  List.length (glyph_pixel_reads m ch) =
    (Z.to_nat (charHeight m) * Z.to_nat (width_px m ch))%nat.
Proof.
  assert (Heq : glyph_pixel_reads m ch = region (width_px m ch) (charHeight m)).
  { unfold glyph_pixel_reads.
    now rewrite glyph_reads_exact, glyph_rect_bound, width_px_eq. }
  rewrite Heq. split; [reflexivity|]. split.
  - apply region_NoDup.
  - apply length_region.
Qed.

(** ** The bytes and the pixels *)

Lemma fold_left_ext_in {A B : Type} (f g : A -> B -> A) (l : list B) :
  (forall a b, In b l -> f a b = g a b) ->
  forall a, fold_left f l a = fold_left g l a.
Proof.
  induction l as [|b l IH]; intros Hfg a; cbn [fold_left]; [reflexivity|].
  rewrite Hfg by (now left). apply IH. intros a' b' Hb'. apply Hfg. now right.
Qed.

Lemma flat_map_ext_in {A B : Type} (f g : A -> list B) (l : list A) :
  (forall a, In a l -> f a = g a) -> flat_map f l = flat_map g l.
Proof.
  induction l as [|a l IH]; intros Hfg; cbn [flat_map]; [reflexivity|].
  rewrite Hfg by (now left). f_equal. apply IH. intros b Hb. apply Hfg. now right.
Qed.

(** The value of a group depends on the image through the binarised
    pixels of the group only. *)
Lemma pack_byte_ext (image image' : QImage) (xByte left y : Z) :
  (forall col, 0 <= col < left ->
     is_black image (xByte + col) y = is_black image' (xByte + col) y) ->
  pack_byte image xByte left y = pack_byte image' xByte left y.
Proof.
  intros Hsame. unfold pack_byte. apply fold_left_ext_in.
  intros value col Hcol. apply in_for_range_1 in Hcol.
  unfold pack_bit. now rewrite Hsame.
Qed.

Lemma same_on_reads (image image' : QImage) (r : QRect) (h : Z) :
  Forall (fun q => is_black image (fst q) (snd q) =
                   is_black image' (fst q) (snd q)) (glyph_reads r h) <->
  (forall c row, 0 <= c < x r + width r -> 0 <= row < h ->
     is_black image c row = is_black image' c row).
Proof.
  rewrite Forall_forall. split.
  - intros Hall c row Hc Hrow.
    apply (Hall (c, row)). apply in_glyph_reads. lia.
  - intros Hsame [c row] Hin. apply in_glyph_reads in Hin. cbn [fst snd].
    apply Hsame; lia.
Qed.

Lemma pack_glyph_ext (image image' : QImage) (r : QRect) (h : Z) :
  (forall c row, 0 <= c < x r + width r -> 0 <= row < h ->
     is_black image c row = is_black image' c row) ->
  pack_glyph image r h = pack_glyph image' r h.
Proof.
  intros Hsame. unfold pack_glyph.
  apply flat_map_ext_in. intros row Hrow. apply in_for_range_1 in Hrow.
  unfold pack_row. apply map_ext_in. intros g Hg.
  apply pack_byte_ext. intros col Hcol.
  rewrite column_groups_closed in Hg. apply in_map_iff in Hg.
  destruct Hg as [k [<- Hk]]. cbn [fst snd] in *. apply in_seq in Hk.
  apply Hsame; lia.
Qed.

Lemma pack_glyph_inj (image image' : QImage) (r : QRect) (h : Z) :
  pack_glyph image r h = pack_glyph image' r h ->
  forall c row, 0 <= c < x r + width r -> 0 <= row < h ->
    is_black image c row = is_black image' c row.
Proof.
  intros Heq c row Hc Hrow.
  set (j := c / 8). set (col := c mod 8).
  assert (Hj : 0 <= j /\ 8 * j < x r + width r /\ c = 8 * j + col /\
               0 <= col < Z.min 8 (x r + width r - 8 * j))
    by (subst j col; Z.div_mod_to_equations; lia).
  destruct Hj as [Hj0 [Hj1 [Hcj Hcol]]].
  pose proof (nth_pack_glyph image r h row j Hrow Hj0 Hj1) as H1.
  pose proof (nth_pack_glyph image' r h row j Hrow Hj0 Hj1) as H2.
  rewrite Heq, H2 in H1.
  rewrite Hcj.
  rewrite <- (pack_byte_column image (8 * j)
                (Z.min 8 (x r + width r - 8 * j)) row col) by lia.
  rewrite <- (pack_byte_column image' (8 * j)
                (Z.min 8 (x r + width r - 8 * j)) row col) by lia.
  now rewrite H1.
Qed.

(** X2: the packed bytes of a glyph carry exactly the binarised pixels of
    the scanned region: two painters give the same bytes for a character
    if and only if their images are black at the same pixels read. *)
Theorem X2_bytes_carry_the_region
    (m : QFontMetrics) (p p' : QPainter) (ch : string) :
  glyph_bytes m p ch = glyph_bytes m p' ch <->
  Forall (fun q => is_black (glyph_image m p ch) (fst q) (snd q) =
                   is_black (glyph_image m p' ch) (fst q) (snd q))
         (glyph_pixel_reads m ch).
Proof.
  unfold glyph_bytes, glyph_pixel_reads. rewrite same_on_reads. split.
  - apply pack_glyph_inj.
  - apply pack_glyph_ext.
Qed.

Lemma pack_byte_white (image : QImage) (xByte left y : Z) :
  (forall col, 0 <= col < left -> is_black image (xByte + col) y = false) ->
  pack_byte image xByte left y = 0.
Proof.
  intros Hwhite. unfold pack_byte.
  rewrite (fold_left_ext_in _ (fun value _ => value)).
  - generalize (for_range 0 left 1) as l. intros l.
    induction l as [|a l IH]; [reflexivity|exact IH].
  - intros value col Hcol. apply in_for_range_1 in Hcol.
    unfold pack_bit. now rewrite Hwhite.
Qed.

Lemma pack_byte_zero (image : QImage) (xByte left y : Z) :
  left <= 32 -> pack_byte image xByte left y = 0 ->
  forall col, 0 <= col < left -> is_black image (xByte + col) y = false.
Proof.
  intros Hleft Hzero col Hcol.
  rewrite <- (pack_byte_column image xByte left y col) by trivial.
  rewrite Hzero. apply Z.bits_0.
Qed.

(** X3: a glyph is packed into zero bytes only, if and only if no pixel
    read is black. *)
Theorem X3_zero_bytes_iff_no_black_pixel
    (m : QFontMetrics) (p : QPainter) (ch : string) :
  Forall (fun value => value = 0) (glyph_bytes m p ch) <->
  Forall (fun q => is_black (glyph_image m p ch) (fst q) (snd q) = false)
         (glyph_pixel_reads m ch).
Proof.
  unfold glyph_bytes, glyph_pixel_reads.
  set (image := glyph_image m p ch). set (r := glyph_rect m ch).
  set (h := charHeight m). rewrite !Forall_forall. split.
  - intros Hzero [c row] Hin. apply in_glyph_reads in Hin. cbn [fst snd].
    destruct Hin as [Hc Hrow].
    set (j := c / 8). set (col := c mod 8).
    assert (Hj : 0 <= j /\ 8 * j < x r + width r /\ c = 8 * j + col /\
                 0 <= col < Z.min 8 (x r + width r - 8 * j))
      by (subst j col; Z.div_mod_to_equations; lia).
    destruct Hj as [Hj0 [Hj1 [Hcj Hcol]]].
    rewrite Hcj.
    apply (pack_byte_zero image (8 * j) (Z.min 8 (x r + width r - 8 * j)) row);
      [lia| |exact Hcol].
    rewrite <- (nth_pack_glyph image r h row j) by trivial.
    apply Hzero. apply nth_In. rewrite length_pack_glyph.
    assert (Hq : j < (x r + width r + 7) / 8) by (Z.div_mod_to_equations; lia).
    nia.
  - intros Hwhite value Hin. unfold pack_glyph in Hin.
    apply in_flat_map in Hin. destruct Hin as [row [Hrow Hin]].
    apply in_for_range_1 in Hrow. unfold pack_row in Hin.
    apply in_map_iff in Hin. destruct Hin as [g [<- Hg]].
    rewrite column_groups_closed in Hg. apply in_map_iff in Hg.
    destruct Hg as [k [<- Hk]]. cbn [fst snd]. apply in_seq in Hk.
    apply pack_byte_white. intros col Hcol.
    apply (Hwhite (8 * Z.of_nat k + col, row)).
    apply in_glyph_reads. lia.
Qed.

(** ** The value of a group as a numeral *)

(** X4: the byte printed for a group is the binary numeral whose digits
    are the pixels of the group from left to right, a black pixel being 1:
    the packer computes, row by row and group by group, these numerals. *)
Theorem X4_bytes_are_numerals (m : QFontMetrics) (p : QPainter) (ch : string) :
  glyph_bytes m p ch =
  flat_map (fun row =>
              map (fun g => numeral_of_pixels (glyph_image m p ch)
                                              (fst g) (snd g) row)
                  (column_groups (glyph_rect m ch)))
           (for_range 0 (charHeight m) 1).
Proof.
  unfold glyph_bytes, pack_glyph. apply flat_map_ext. intros row.
  unfold pack_row. apply map_ext_in. intros g Hg.
  apply column_groups_left in Hg. apply pack_byte_numeral. lia.
Qed.

(** X5: the byte of a group of [left] columns is below [2 ^ left]: a
    trailing group of k < 8 columns fills the k low bits of its byte and
    leaves the bits k .. 7 at zero. *)
Theorem X5_partial_group_low_bits
    (m : QFontMetrics) (p : QPainter) (ch : string) (row j : Z) :
  let bound := width_px m ch in
  let left := Z.min 8 (bound - 8 * j) in
  let value :=
    nth (Z.to_nat (row * ((bound + 7) / 8) + j)) (glyph_bytes m p ch) 0 in
  0 <= row < charHeight m -> 0 <= j -> 8 * j < bound ->
  0 <= value < 2 ^ left /\ Z.shiftr value left = 0.
Proof.
  intros bound left value Hrow Hj Hbound.
  assert (Hb : x (glyph_rect m ch) + width (glyph_rect m ch) = bound).
  { subst bound. now rewrite glyph_rect_bound, width_px_eq. }
  assert (Hvalue : value = pack_byte (glyph_image m p ch) (8 * j) left row).
  { subst value left. unfold glyph_bytes. rewrite <- Hb.
    apply nth_pack_glyph; lia. }
  assert (Hrange : 0 <= value < 2 ^ left).
  { rewrite Hvalue. apply pack_byte_range. subst left. lia. }
  split; [exact Hrange|].
  rewrite Z.shiftr_div_pow2 by (subst left; lia).
  apply Z.div_small. exact Hrange.
Qed.

Lemma X5_partial_group_low_bits_witness :
  let m := mock_metrics 1 (QRect_ 0 0 11 1) 12 in
  let p := mock_painter [(8, 0); (9, 0); (10, 0)] in
  0 <= nth 1 (glyph_bytes m p "A") 0 < 2 ^ 3 /\
  Z.shiftr (nth 1 (glyph_bytes m p "A") 0) 3 = 0.
Proof.
  cbv zeta.
  apply (X5_partial_group_low_bits (mock_metrics 1 (QRect_ 0 0 11 1) 12)
           (mock_painter [(8, 0); (9, 0); (10, 0)]) "A" 0 1
           ltac:(cbn; lia) ltac:(lia) ltac:(cbn; lia)).
Defined.

(** ** Empty glyphs and the buffer *)

(** X6: a glyph has no packed byte, and no pixel is read for it, exactly
    when the reported width or the line height is not positive. *)
Theorem X6_empty_glyph_iff (m : QFontMetrics) (p : QPainter) (ch : string) :
  (glyph_bytes m p ch = [] <-> width_px m ch <= 0 \/ charHeight m <= 0) /\
  (glyph_pixel_reads m ch = [] <-> width_px m ch <= 0 \/ charHeight m <= 0).
Proof.
  split.
  - rewrite <- length_zero_iff_nil. unfold glyph_bytes.
    rewrite length_pack_glyph, glyph_rect_bound, <- width_px_eq.
    split.
    + intros Hlen. apply Nat.eq_mul_0 in Hlen. destruct Hlen as [Hh|Hw].
      * right. lia.
      * left. Z.div_mod_to_equations. lia.
    + intros [Hw|Hh].
      * replace (Z.to_nat ((width_px m ch + 7) / 8)) with 0%nat; [lia|].
        Z.div_mod_to_equations. lia.
      * replace (Z.to_nat (charHeight m)) with 0%nat by lia. reflexivity.
  - rewrite <- length_zero_iff_nil. unfold glyph_pixel_reads.
    rewrite glyph_reads_exact, length_region, glyph_rect_bound, <- width_px_eq.
    split.
    + intros Hlen. apply Nat.eq_mul_0 in Hlen. lia.
    + intros [Hw|Hh].
      * replace (Z.to_nat (width_px m ch)) with 0%nat by lia. lia.
      * replace (Z.to_nat (charHeight m)) with 0%nat by lia. reflexivity.
Qed.

(** X7: every pixel read for a glyph lies inside the 100 by 100 buffer
    exactly when the scan is empty or the reported width and the line
    height are both at most 100. *)
Theorem X7_reads_inside_buffer_iff (m : QFontMetrics) (ch : string) :
  forallb in_buffer (glyph_pixel_reads m ch) = true <->
  width_px m ch <= 0 \/ charHeight m <= 0 \/
  (width_px m ch <= 100 /\ charHeight m <= 100).
Proof.
  rewrite forallb_forall. unfold glyph_pixel_reads.
  assert (Hin : forall c row, In (c, row) (glyph_reads (glyph_rect m ch) (charHeight m))
                <-> 0 <= c < width_px m ch /\ 0 <= row < charHeight m).
  { intros c row. now rewrite in_glyph_reads, glyph_rect_bound, <- width_px_eq. }
  split.
  - intros Hall.
    destruct (Z.le_gt_cases (width_px m ch) 0) as [Hw|Hw]; [now left|].
    destruct (Z.le_gt_cases (charHeight m) 0) as [Hh|Hh]; [now right; left|].
    right. right.
    assert (Hq : In (width_px m ch - 1, charHeight m - 1)
                    (glyph_reads (glyph_rect m ch) (charHeight m)))
      by (apply Hin; lia).
    pose proof (Hall _ Hq) as Hlast.
    unfold in_buffer, image_width, image_height in Hlast. cbn [fst snd] in Hlast.
    rewrite !andb_true_iff in Hlast.
    destruct Hlast as [[[_ Hc] _] Hr].
    apply Z.ltb_lt in Hc, Hr. lia.
  - intros Hcases [c row] Hq. apply Hin in Hq.
    unfold in_buffer, image_width, image_height. cbn [fst snd].
    rewrite !andb_true_iff. repeat split.
    + apply Z.leb_le. lia.
    + apply Z.ltb_lt. lia.
    + apply Z.leb_le. lia.
    + apply Z.ltb_lt. lia.
Qed.

(** ** What the file keeps of the bounding rectangles *)

(** X8: the file depends on the bounding rectangles through their right
    edges only: two metrics with the same line height, the same advances
    and, for every character, rectangles with the same right edge give the
    same file, whatever the left edges, tops and heights are. *)
Theorem X8_only_the_right_edge_counts (m m' : QFontMetrics) (p : QPainter) :
  metrics_height m = metrics_height m' ->
  (forall ch, x2 (boundingRect m ch) = x2 (boundingRect m' ch)) ->
  (forall ch, horizontalAdvance m ch = horizontalAdvance m' ch) ->
  saveButton m p = saveButton m' p.
Proof.
  intros Hheight Hright Hadvance.
  assert (Hh : charHeight m = charHeight m') by exact Hheight.
  assert (Hrect : forall ch, glyph_rect m ch = glyph_rect m' ch).
  { intros ch. now rewrite !glyph_rect_eq, Hright, Hh. }
  rewrite !saveButton_text. f_equal.
  - exact Hh.
  - unfold chars_seq. apply map_ext. intros ch.
    unfold glyph_bytes, glyph_image. now rewrite Hrect, Hh.
  - unfold width_seq. apply map_ext. intros i.
    rewrite !width_px_eq. unfold x, width. rewrite Hright. lia.
  - unfold advance_seq. apply map_ext. intros i. apply Hadvance.
Qed.

Lemma X8_only_the_right_edge_counts_witness :
  saveButton (mock_metrics 2 (QRect_ 2 0 3 1) 4) (mock_painter [(2, 0)]) =
  saveButton (mock_metrics 2 (QRect_ 0 7 5 9) 4) (mock_painter [(2, 0)]).
Proof.
  apply (X8_only_the_right_edge_counts
           (mock_metrics 2 (QRect_ 2 0 3 1) 4)
           (mock_metrics 2 (QRect_ 0 7 5 9) 4)
           (mock_painter [(2, 0)])).
  - reflexivity.
  - intros ch. reflexivity.
  - intros ch. reflexivity.
Defined.

(** * The preview *)

Lemma row_accesses_closed (size y : Z) :
  forall (fuel : nat) (x : Z),
    0 <= x -> (Z.to_nat (33 - x) <= fuel)%nat ->
    row_accesses fuel size y x =
    map (fun k => y * 32 + (x + Z.of_nat k))
        (seq 0 (Z.to_nat (Z.min (33 - x) (size - y * 32 - x + 1)))).
Proof.
  induction fuel as [|fuel IH]; intros x Hx Hfuel.
  - replace (Z.to_nat (Z.min (33 - x) (size - y * 32 - x + 1))) with 0%nat by lia.
    reflexivity.
  - cbn [row_accesses]. destruct (Z.leb_spec x 32) as [Hle|Hgt].
    + destruct (Z.gtb_spec (y * 32 + x) size) as [Hbreak|Hin].
      * replace (Z.to_nat (Z.min (33 - x) (size - y * 32 - x + 1)))
          with 0%nat by lia.
        reflexivity.
      * rewrite IH by lia.
        replace (Z.to_nat (Z.min (33 - x) (size - y * 32 - x + 1)))
          with (S (Z.to_nat (Z.min (33 - (x + 1)) (size - y * 32 - (x + 1) + 1))))
          by lia.
        cbn [seq map]. f_equal; [lia|].
        rewrite <- seq_shift, map_map. apply map_ext. intros k. lia.
    + replace (Z.to_nat (Z.min (33 - x) (size - y * 32 - x + 1))) with 0%nat by lia.
      reflexivity.
Qed.

(** Row [y] reads the indices 32 y, 32 y + 1, ... up to 32 y + 32 or to
    [size], whichever comes first. *)
Lemma preview_row_accesses_closed (size y : Z) :
  preview_row_accesses size y =
  map (fun k => y * 32 + Z.of_nat k)
      (seq 0 (Z.to_nat (Z.min 33 (size - y * 32 + 1)))).
Proof.
  unfold preview_row_accesses. rewrite row_accesses_closed by lia.
  replace (size - y * 32 - 0 + 1) with (size - y * 32 + 1) by lia.
  reflexivity.
Qed.

Lemma in_preview_row_accesses (size y i : Z) :
  In i (preview_row_accesses size y) <->
  y * 32 <= i <= y * 32 + 32 /\ i <= size.
Proof.
  rewrite preview_row_accesses_closed, in_map_iff. split.
  - intros [k [<- Hk]]. apply in_seq in Hk. lia.
  - intros [Hi Hs]. exists (Z.to_nat (i - y * 32)). split; [lia|].
    apply in_seq. lia.
Qed.

Lemma in_preview_accesses (size i : Z) :
  In i (preview_accesses size) <-> 0 <= i <= Z.min size 192.
Proof.
  unfold preview_accesses. rewrite in_flat_map. split.
  - intros [y [Hy Hin]]. apply in_for_range_1 in Hy.
    apply in_preview_row_accesses in Hin. lia.
  - intros Hi. exists (Z.min 5 (i / 32)). split.
    + apply in_for_range_1. Z.div_mod_to_equations. lia.
    + apply in_preview_row_accesses. Z.div_mod_to_equations. lia.
Qed.

(** X9: for a vector of [size] entries the preview reads exactly the
    indices 0 .. min(size, 192): the index [size], one past the last
    entry, passes the guard [> chars.size()], and no entry after the
    index 192 is ever shown. *)
Theorem X9_preview_indices (size : Z) :
  (forall i, In i (preview_accesses size) <-> 0 <= i <= Z.min size 192) /\
  Forall (fun i => 0 <= i <= size) (preview_accesses size).
Proof.
  split; [intros i; apply in_preview_accesses|].
  apply Forall_forall. intros i Hi. apply in_preview_accesses in Hi. lia.
Qed.

Lemma append_entry_none (v : list string) (l : list Z) :
  fold_left (append_entry v) l None = None.
Proof. induction l as [|i l IH]; [reflexivity|exact IH]. Qed.

Lemma append_entry_undefined (v : list string) (l : list Z) (i : Z) :
  In i l -> vector_at v i = None ->
  forall s, fold_left (append_entry v) l s = None.
Proof.
  intros Hin Hnone. induction l as [|a l IH]; intros s; [contradiction|].
  cbn [fold_left]. destruct Hin as [->|Hin].
  - replace (append_entry v s i) with (@None string).
    + apply append_entry_none.
    + unfold append_entry. rewrite Hnone. now destruct s.
  - now apply IH.
Qed.

Lemma preview_row_none (v : list string) (l : list Z) :
  fold_left (preview_row v) l None = None.
Proof.
  induction l as [|y l IH]; [reflexivity|].
  cbn [fold_left]. unfold preview_row at 2. now rewrite append_entry_none.
Qed.

Lemma preview_row_undefined (v : list string) (l : list Z) (y i : Z) :
  In y l -> In i (preview_row_accesses (Z.of_nat (List.length v)) y) ->
  vector_at v i = None ->
  forall s, fold_left (preview_row v) l s = None.
Proof.
  intros Hy Hi Hnone. induction l as [|a l IH]; intros s; [contradiction|].
  cbn [fold_left]. destruct Hy as [->|Hy].
  - unfold preview_row at 2.
    rewrite (append_entry_undefined v _ i Hi Hnone). apply preview_row_none.
  - now apply IH.
Qed.

(** X10: for every vector of at most 192 entries, the 170 entries of
    [chars] among them, [paintEvent] reads the entry at the index
    [size], which the vector does not have: the guard lets the index
    equal to the size through, and the run is undefined. *)
Theorem X10_preview_reads_past_the_end (v : list string) :
  (List.length v <= 192)%nat ->
  In (Z.of_nat (List.length v)) (preview_accesses (Z.of_nat (List.length v))) /\
  vector_at v (Z.of_nat (List.length v)) = None /\
  paintEvent v = None.
Proof.
  intros Hlen.
  assert (Hin : In (Z.of_nat (List.length v))
                   (preview_accesses (Z.of_nat (List.length v))))
    by (apply in_preview_accesses; lia).
  assert (Hnone : vector_at v (Z.of_nat (List.length v)) = None).
  { unfold vector_at. destruct (Z.ltb_spec (Z.of_nat (List.length v)) 0); [lia|].
    apply nth_error_None. lia. }
  split; [exact Hin|]. split; [exact Hnone|].
  unfold preview_accesses in Hin. apply in_flat_map in Hin.
  destruct Hin as [y [Hy Hi]].
  unfold paintEvent. now apply (preview_row_undefined v _ y _ Hy Hi Hnone).
Qed.

Lemma X10_preview_reads_past_the_end_witness : paintEvent chars = None.
Proof.
  apply (X10_preview_reads_past_the_end chars). cbn. lia.
Defined.

Lemma skipn_nth_error {A : Type} (v : list A) :
  forall (start : nat) (e : A),
    nth_error v start = Some e -> skipn start v = e :: skipn (S start) v.
Proof.
  induction v as [|a v IH]; intros start e Hnth.
  - destruct start; discriminate.
  - destruct start as [|start]; cbn in Hnth.
    + now inversion Hnth.
    + cbn [skipn]. rewrite (IH start e Hnth). reflexivity.
Qed.

(** Reading [cnt] entries that the vector has appends them in order. *)
Lemma append_entries_defined (v : list string) :
  forall (cnt start : nat) (s : string),
    (start + cnt <= List.length v)%nat ->
    fold_left (append_entry v) (map Z.of_nat (seq start cnt)) (Some s) =
    Some (s ++ join (firstn cnt (skipn start v))).
Proof.
  induction cnt as [|cnt IH]; intros start s Hlen.
  - cbn [seq map fold_left firstn]. unfold join. cbn. now rewrite append_nil_r.
  - cbn [seq map fold_left].
    destruct (nth_error v start) as [e|] eqn:Hnth;
      [|apply nth_error_None in Hnth; lia].
    assert (Hat : vector_at v (Z.of_nat start) = Some e).
    { unfold vector_at. destruct (Z.ltb_spec (Z.of_nat start) 0); [lia|].
      now rewrite Nat2Z.id. }
    unfold append_entry at 2. rewrite Hat.
    rewrite IH by lia. rewrite (skipn_nth_error v start e Hnth).
    cbn [firstn]. unfold join. cbn [fold_right]. now rewrite append_assoc.
Qed.

Lemma preview_row_defined (v : list string) (y : nat) (s : string) :
  (32 * y + 33 <= List.length v)%nat ->
  preview_row v (Some s) (Z.of_nat y) =
  Some (s ++ join (firstn 33 (skipn (32 * y) v)) ++ LF).
Proof.
  intros Hlen. unfold preview_row. rewrite preview_row_accesses_closed.
  replace (Z.to_nat (Z.min 33 (Z.of_nat (List.length v) - Z.of_nat y * 32 + 1)))
    with 33%nat by lia.
  replace (map (fun k => Z.of_nat y * 32 + Z.of_nat k) (seq 0 33))
    with (map Z.of_nat (seq (32 * y) 33)).
  - rewrite append_entries_defined by lia. now rewrite append_assoc.
  - rewrite <- (seq_from 33 (32 * y)), map_map.
    apply map_ext. intros k. lia.
Qed.

Lemma preview_rows_defined (v : list string) :
  forall (ys : list nat) (s : string),
    Forall (fun y => (32 * y + 33 <= List.length v)%nat) ys ->
    fold_left (preview_row v) (map Z.of_nat ys) (Some s) =
    Some (s ++ join (map (fun y => join (firstn 33 (skipn (32 * y) v)) ++ LF) ys)).
Proof.
  induction ys as [|y ys IH]; intros s Hys; cbn [map fold_left].
  - unfold join. cbn. now rewrite append_nil_r.
  - apply Forall_cons_iff in Hys. destruct Hys as [Hy Hys].
    rewrite preview_row_defined by exact Hy. rewrite IH by exact Hys.
    unfold join. cbn [fold_right]. now rewrite !append_assoc.
Qed.

(** X11: for a vector of at least 193 entries [paintEvent] draws six
    lines of 33 entries each, line y holding the entries 32 y .. 32 y + 32:
    the last entry of a line is repeated as the first of the next, and
    the entries from the index 193 on are not drawn. *)
Theorem X11_preview_of_a_long_vector (v : list string) :
  (193 <= List.length v)%nat ->
  paintEvent v =
  Some (join (map (fun y => join (firstn 33 (skipn (32 * y) v)) ++ LF)
                  (seq 0 6))).
Proof.
  intros Hlen. unfold paintEvent. rewrite for_range_1.
  change (Z.to_nat 6) with 6%nat.
  rewrite preview_rows_defined; [reflexivity|].
  apply Forall_forall. intros y Hy. apply in_seq in Hy. lia.
Qed.

Lemma X11_preview_of_a_long_vector_witness :
  paintEvent (repeat "ab" 193) =
  Some (join (map (fun y => join (firstn 33 (skipn (32 * y) (repeat "ab" 193)))
                            ++ LF)
                  (seq 0 6))).
Proof.
  apply (X11_preview_of_a_long_vector (repeat "ab" 193)).
  rewrite repeat_length. apply Nat.le_refl.
Defined.

(** X12: whenever the vector reaches the index 32 (y + 1), row y of the
    preview reads 33 indices, from 32 y to 32 (y + 1), and row y + 1
    starts again at 32 (y + 1): the entry at a multiple of 32 is read by
    two rows. *)
Theorem X12_preview_rows_overlap (size y : Z) :
  0 <= y -> 32 * (y + 1) <= size ->
  preview_row_accesses size y =
    map (fun k => 32 * y + Z.of_nat k) (seq 0 33) /\
  last (preview_row_accesses size y) 0 = 32 * (y + 1) /\
  hd 0 (preview_row_accesses size (y + 1)) = 32 * (y + 1).
Proof.
  intros Hy Hsize.
  assert (Hrow : preview_row_accesses size y =
                 map (fun k => 32 * y + Z.of_nat k) (seq 0 33)).
  { rewrite preview_row_accesses_closed.
    replace (Z.to_nat (Z.min 33 (size - y * 32 + 1))) with 33%nat by lia.
    apply map_ext. intros k. lia. }
  split; [exact Hrow|]. split.
  - rewrite Hrow. change (seq 0 33) with (seq 0 32 ++ [32%nat])%list.
    rewrite map_app. cbn [map]. rewrite last_last. lia.
  - rewrite preview_row_accesses_closed.
    replace (Z.to_nat (Z.min 33 (size - (y + 1) * 32 + 1)))
      with (S (Z.to_nat (Z.min 33 (size - (y + 1) * 32 + 1)) - 1)) by lia.
    cbn [seq map hd]. lia.
Qed.

Lemma X12_preview_rows_overlap_witness :
  last (preview_row_accesses 170 1) 0 = 64 /\
  hd 0 (preview_row_accesses 170 2) = 64.
Proof.
  exact (proj2 (X12_preview_rows_overlap 170 1 ltac:(lia) ltac:(lia))).
Defined.

(** * The window *)

Section WindowProperties.

Variable metrics_of : Window.QFont -> QFontMetrics.
Variable painter_of : Window.QFont -> QPainter.
Variable can_open : string -> bool.

Lemma setFont_crisp (font : Window.QFont) : Window.crisp (Window.setFont font).
Proof. repeat split. Qed.

Lemma step_keeps_crisp (w w' : Window.MainWindow) (e : Window.press) :
  Window.crisp (Window.m_font w) -> Window.files_crisp metrics_of painter_of w ->
  Window.step metrics_of painter_of can_open w e = Some w' ->
  Window.crisp (Window.m_font w') /\ Window.files_crisp metrics_of painter_of w'.
Proof.
  intros Hfont Hfiles Hstep.
  destruct e as [ok font|[filename|]];
    cbn [Window.step Window.saveButton_pressed] in Hstep.
  - inversion Hstep; subst w'. unfold Window.fontButton.
    destruct ok; [|now split]. split; [apply setFont_crisp|exact Hfiles].
  - destruct (can_open filename); [|discriminate].
    inversion Hstep; subst w'. split; [exact Hfont|].
    unfold Window.files_crisp. cbn [Window.files]. constructor; [|exact Hfiles].
    exists (Window.m_font w). split; [exact Hfont|reflexivity].
  - inversion Hstep; subst w'. now split.
Qed.

Lemma run_keeps_crisp (presses : list Window.press) :
  forall w w',
    Window.crisp (Window.m_font w) -> Window.files_crisp metrics_of painter_of w ->
    Window.run metrics_of painter_of can_open w presses = Some w' ->
    Window.crisp (Window.m_font w') /\ Window.files_crisp metrics_of painter_of w'.
Proof.
  induction presses as [|e presses IH]; intros w w' Hfont Hfiles Hrun;
    cbn [Window.run] in Hrun.
  - inversion Hrun; subst w'. now split.
  - destruct (Window.step metrics_of painter_of can_open w e) as [w1|] eqn:Hstep;
      [|discriminate].
    destruct (step_keeps_crisp w w1 e Hfont Hfiles Hstep) as [Hfont1 Hfiles1].
    exact (IH w1 w' Hfont1 Hfiles1 Hrun).
Qed.

(** X13: whatever the operator does with the two buttons, the font of
    the window has full hinting, the style hint [AnyStyle] and the strategy
    [NoAntialias] only, and every file written holds the font table of
    such a font. *)
Theorem X13_font_stays_crisp
    (font : Window.QFont) (presses : list Window.press) (w : Window.MainWindow) :
  Window.run metrics_of painter_of can_open (Window.new_window font) presses
    = Some w ->
  Window.crisp (Window.currentFont w) /\
  Forall (fun file =>
            exists f, Window.crisp f /\
              snd file = saveButton (metrics_of f) (painter_of f))
         (Window.files w).
Proof.
  intros Hrun.
  apply (run_keeps_crisp presses (Window.new_window font) w); trivial.
  - apply setFont_crisp.
  - constructor.
Qed.

(** X15: cancelled dialogs have no effect: a session and the same
    session without its cancelled presses end in the same window. *)
Theorem X15_cancelled_presses_do_nothing
    (w : Window.MainWindow) (presses : list Window.press) :
  Window.run metrics_of painter_of can_open w (filter Window.accepted presses) =
  Window.run metrics_of painter_of can_open w presses.
Proof.
  revert w. induction presses as [|e presses IH]; intros w; [reflexivity|].
  cbn [filter]. destruct e as [[|] font|[filename|]]; cbn [Window.accepted].
  - cbn [Window.run Window.step]. apply IH.
  - cbn [Window.run Window.step Window.fontButton]. apply IH.
  - cbn [Window.run]. destruct (Window.step _ _ _ w _); [apply IH|reflexivity].
  - cbn [Window.run Window.step Window.saveButton_pressed]. apply IH.
Qed.

End WindowProperties.

Lemma X13_font_stays_crisp_witness :
  let metrics_of := fun _ : Window.QFont => mock_metrics 2 (QRect_ 0 0 3 2) 4 in
  let painter_of := fun _ : Window.QFont => mock_painter [(1, 1)] in
  let font := Window.mkQFont "Sans,12" Window.PreferDefaultHinting Window.Times 1 in
  let w := Window.mkWindow (Window.setFont font)
             [("font.rs", saveButton (metrics_of font) (painter_of font))] in
  Window.crisp (Window.currentFont w).
Proof.
  cbv zeta.
  exact (proj1 (X13_font_stays_crisp
    (fun _ => mock_metrics 2 (QRect_ 0 0 3 2) 4)
    (fun _ => mock_painter [(1, 1)])
    (fun _ => true)
    (Window.mkQFont "Sans,12" Window.PreferDefaultHinting Window.Times 1)
    [Window.FontPressed false
       (Window.mkQFont "Serif,9" Window.PreferNoHinting Window.Times 128);
     Window.SavePressed None;
     Window.SavePressed (Some "font.rs")]
    _ eq_refl)).
Defined.
